(** * The per-partition processing core of go-kafka-event-source

    A shallow embedding of the batcher source of package [streams] (the
    [Batch] fan-in and the [AsyncBatcher]) and of [streams/partition_worker.go]
    (the partition worker and its async completer), with the properties the
    specification states about them.

    Conventions.
    - Go's [int64] (and [int], [time.Duration]) is a [Z] with the wrap-around
      written out, see [Int64].
    - A pointer to a heap object is an index: a slot is its
      position in [batches]; a batch is an address of the batch store.
    - Everything the batcher does under [ab.mux] is one atomic transition.
    - Calls into collaborators that are not part of these files (the user's
      executor, callbacks and event handler, the producer pool, the logger)
      are recorded in traces. *)

From Stdlib Require Import ZArith Lia.
From stdpp Require Import base option list gmap.

(** ** Machine integers *)

Module Int64.

Definition min_signed : Z := - 2 ^ 63.
Definition max_signed : Z := 2 ^ 63 - 1.

(** The value an arbitrary integer has after it is stored in an [int64]. *)
Definition wrap (z : Z) : Z := ((z + 2 ^ 63) mod 2 ^ 64 - 2 ^ 63)%Z.

Definition add (a b : Z) : Z := wrap (a + b).
Definition neg (a : Z) : Z := wrap (- a).

Definition in_range (z : Z) : Prop := (min_signed <= z <= max_signed)%Z.

End Int64.

(** ** Execution states ([partition_worker.go], lines 29-42) *)

Inductive ExecutionState := Complete | Incomplete | Fatal | unknownType.

Definition ExecutionState_code (s : ExecutionState) : Z :=
  match s with
  | Complete => 0
  | Incomplete => 1
  | Fatal => 2
  | unknownType => 3
  end.

Global Instance ExecutionState_eq_dec : EqDecision ExecutionState.
Proof. solve_decision. Defined.

(** Addresses of heap objects the code only passes around. *)
Definition ptr := nat.      (* address of a Batch *)
Definition ecref := nat.    (* address of an EventContext *)
Definition cbref := nat.    (* a non-nil callback *)
Definition error := nat.    (* a non-nil error value *)

(** ** Batches and the asynchronous batcher *)

Module Batcher.

Section WithKeys.

Context {K : Type} `{Countable K} {V : Type}.

(** [BatchItem]: [batch] is the back pointer to the owning [Batch]. *)
Record BatchItem := mkItem { batch : ptr; Key : K; Value : V }.

(** The package-level [batchFor] is the cast of that pointer. *)
Definition batchOf (bi : BatchItem) : ptr := batch bi.

Record Batch := mkBatch {
  EventContext : ecref;
  Items : list BatchItem;
  callback : option cbref;
  completed : Z
  }.

Definition NewBatch (ec : ecref) (cb : option cbref) : Batch :=
  {| EventContext := ec; Items := []; callback := cb; completed := 0 |}.

(** What a batch does when its last item completes. *)
Inductive terminal :=
  | RunCallback (cb : cbref)
    (* b.callback(b) *)
  | AsyncJobComplete (ec : ecref) (result : ExecutionState * option error).
    (* b.EventContext.AsyncJobComplete, with a job returning the pair *)

Definition set_completed (c : Z) (b : Batch) : Batch :=
  {| EventContext := EventContext b; Items := Items b;
     callback := callback b; completed := c |}.

(** [completeItem] (lines 50-60): the atomic increment returns the new value,
    which is compared with [int64(len(b.Items))]. *)
Definition completeItem (b : Batch) : Batch * list terminal :=
  let c := Int64.add (completed b) 1 in
  let b' := set_completed c b in
  if (c =? Z.of_nat (length (Items b)))%Z then
    match callback b with
    | Some cb => (b', [RunCallback cb])
    | None => (b', [AsyncJobComplete (EventContext b) (Complete, None)])
    end
  else (b', []).

(** [k] calls of [completeItem] on one batch, one after the other (the
    increment is atomic, so concurrent calls take effect in some order),
    with what they fire. *)
Fixpoint completeItem_times (k : nat) (b : Batch) : Batch * list terminal :=
  match k with
  | O => (b, [])
  | S k =>
      let '(b1, fired1) := completeItem b in
      let '(b2, fired2) := completeItem_times k b1 in
      (b2, fired1 ++ fired2)
  end.

(** The terminal action of a batch: its callback when it has one, the
    default completion of its event context otherwise. *)
Definition terminal_of (b : Batch) : terminal :=
  match callback b with
  | Some cb => RunCallback cb
  | None => AsyncJobComplete (EventContext b) (Complete, None)
  end.

(** [Batch.Add] (lines 62-68) and [Batch.AddKeyValue] (lines 70-73), for the
    batch stored at [p]: both set the back pointer of what they append. *)
Definition set_batch (p : ptr) (bi : BatchItem) : BatchItem :=
  {| batch := p; Key := Key bi; Value := Value bi |}.

Definition set_Items (l : list BatchItem) (b : Batch) : Batch :=
  {| EventContext := EventContext b; Items := l;
     callback := callback b; completed := completed b |}.

Definition Batch_Add (p : ptr) (new : list BatchItem) (b : Batch) : Batch :=
  set_Items (Items b ++ map (set_batch p) new) b.

Definition Batch_AddKeyValue (p : ptr) (key : K) (value : V) (b : Batch) : Batch :=
  set_Items (Items b ++ [{| batch := p; Key := key; Value := value |}]) b.

(** *** Slots *)

Inductive asyncBatchState := batcherReady | batcherExecuting.

(** [flushTimer] is [true] when the field holds a timer, [false] for nil. *)
Record asyncBatch := mkSlot {
  items : list BatchItem;
  state : asyncBatchState;
  flushTimer : bool
  }.

Definition asyncBatch_add (item : BatchItem) (b : asyncBatch) : asyncBatch :=
  {| items := items b ++ [item]; state := state b; flushTimer := flushTimer b |}.

(** [reset] (lines 94-102): the loop over the slot's items deletes their keys
    from the assignments; then the slot is emptied and made Ready. *)
Definition reset_assignments (its : list BatchItem) (assignments : gmap K nat)
  : gmap K nat :=
  foldl (fun m item => delete (Key item) m) assignments its.

Definition reset (b : asyncBatch) (assignments : gmap K nat)
  : asyncBatch * gmap K nat :=
  ({| items := []; state := batcherReady; flushTimer := flushTimer b |},
   reset_assignments (items b) assignments).

(** *** The batcher *)

Record AsyncBatcher := mkBatcher {
  batches : list asyncBatch;
  assignments : gmap K nat;
  pendingItems : list BatchItem;
  executingCount : Z;
  MaxBatchSize : Z;
  BatchDelay : Z
  }.

Definition Millisecond : Z := 1000000.

(** Modelled from the spec: [sak.Abs] is not among the sources; the spec has
    it normalise a negative duration to its absolute value.  The negation
    is the [int64] one, as the result is a [time.Duration]. *)
Definition sak_Abs (a : Z) : Z := if (a <? 0)%Z then Int64.neg a else a.

Definition empty_slot : asyncBatch :=
  {| items := []; state := batcherReady; flushTimer := false |}.

(** [NewAsyncBatcher] (lines 115-134): [make] panics on a negative length or
    capacity ([None]); the capacity is only evaluated when there is a slot
    to allocate.  [time.Millisecond] is 1000000 ns. *)
Definition NewAsyncBatcher (maxBatchSize maxConcurrentBatches delay : Z)
  : option AsyncBatcher :=
  if (maxConcurrentBatches <? 0)%Z then None
  else if ((0 <? maxConcurrentBatches) && (maxBatchSize <? 0))%Z then None
  else
    let delay := if (delay =? 0)%Z then (Millisecond * 5)%Z else delay in
    Some {| batches := replicate (Z.to_nat maxConcurrentBatches) empty_slot;
            assignments := ∅;
            pendingItems := [];
            executingCount := 0;
            MaxBatchSize := maxBatchSize;
            BatchDelay := sak_Abs delay |}.

Definition set_batches (l : list asyncBatch) (ab : AsyncBatcher) : AsyncBatcher :=
  {| batches := l; assignments := assignments ab;
     pendingItems := pendingItems ab; executingCount := executingCount ab;
     MaxBatchSize := MaxBatchSize ab; BatchDelay := BatchDelay ab |}.

Definition set_assignments (m : gmap K nat) (ab : AsyncBatcher) : AsyncBatcher :=
  {| batches := batches ab; assignments := m;
     pendingItems := pendingItems ab; executingCount := executingCount ab;
     MaxBatchSize := MaxBatchSize ab; BatchDelay := BatchDelay ab |}.

Definition set_pendingItems (l : list BatchItem) (ab : AsyncBatcher) : AsyncBatcher :=
  {| batches := batches ab; assignments := assignments ab;
     pendingItems := l; executingCount := executingCount ab;
     MaxBatchSize := MaxBatchSize ab; BatchDelay := BatchDelay ab |}.

Definition set_executingCount (n : Z) (ab : AsyncBatcher) : AsyncBatcher :=
  {| batches := batches ab; assignments := assignments ab;
     pendingItems := pendingItems ab; executingCount := n;
     MaxBatchSize := MaxBatchSize ab; BatchDelay := BatchDelay ab |}.

(** The scan [for _, batch := range ab.batches] of [batchFor]: the index of
    the first slot that is Ready. *)
Fixpoint first_ready (l : list asyncBatch) : option nat :=
  match l with
  | [] => None
  | b :: rest =>
      match state b with
      | batcherReady => Some 0
      | batcherExecuting => S <$> first_ready rest
      end
  end.

(** [batchFor] (lines 152-165): [None] is the nil slot. *)
Definition batchFor (item : BatchItem) (ab : AsyncBatcher) : option nat :=
  match assignments ab !! Key item with
  | Some i =>
      match batches ab !! i with
      | Some b =>
          match state b with
          | batcherReady => Some i
          | batcherExecuting => None
          end
      | None => None
      end
  | None => first_ready (batches ab)
  end.

(** [conditionallyExecuteBatch] (lines 183-193); the goroutine it starts is
    the later transition [executeBatch] of the same slot. *)
Definition conditionallyExecuteBatch (i : nat) (ab : AsyncBatcher) : AsyncBatcher :=
  match batches ab !! i with
  | Some b =>
      match state b with
      | batcherReady =>
          set_executingCount (Int64.add (executingCount ab) 1)
            (set_batches
               (<[i := {| items := items b; state := batcherExecuting;
                          flushTimer := false |}]> (batches ab)) ab)
      | batcherExecuting => ab
      end
  | None => ab
  end.

Definition arm_timer (b : asyncBatch) : asyncBatch :=
  {| items := items b; state := state b; flushTimer := true |}.

(** [addToBatch] (lines 167-181): assign the key, append the item, then
    dispatch a slot that reached [MaxBatchSize], or arm its flush timer when
    it has none. *)
Definition addToBatch (item : BatchItem) (i : nat) (ab : AsyncBatcher) : AsyncBatcher :=
  let ab1 :=
    set_batches (alter (asyncBatch_add item) i (batches ab))
      (set_assignments (<[Key item := i]> (assignments ab)) ab) in
  match batches ab1 !! i with
  | Some b =>
      if (Z.of_nat (length (items b)) =? MaxBatchSize ab1)%Z then
        conditionallyExecuteBatch i ab1
      else if flushTimer b then ab1
      else set_batches (alter arm_timer i (batches ab1)) ab1
  | None => ab1
  end.

(** [add] (lines 142-150), the critical section of one submitted item. *)
Definition add (bi : BatchItem) (ab : AsyncBatcher) : AsyncBatcher :=
  match batchFor bi ab with
  | Some i => addToBatch bi i ab
  | None => set_pendingItems (pendingItems ab ++ [bi]) ab
  end.

(** [Add] (lines 136-140): one [add] per item of the batch. *)
Definition Add (b : Batch) (ab : AsyncBatcher) : AsyncBatcher :=
  foldl (fun ab item => add item ab) ab (Items b).

(** The loop of [flushPendingItems] (lines 208-223) from element [el] on: the result is the
    batcher (its [pendingItems] field is not read or written by the calls
    in the loop body) and what is left of the queue from [el] on.  On the
    early [return] the element [el] is still linked in the queue. *)
Fixpoint flush_from (els : list BatchItem) (ab : AsyncBatcher)
  : AsyncBatcher * list BatchItem :=
  match els with
  | [] => (ab, [])
  | el :: rest =>
      match batchFor el ab with
      | Some i =>
          let ab' := addToBatch el i ab in
          if (executingCount ab' =? Z.of_nat (length (batches ab')))%Z
          then (ab', el :: rest)
          else flush_from rest ab'
      | None =>
          let '(ab', remaining) := flush_from rest ab in (ab', el :: remaining)
      end
  end.

Definition flushPendingItems (ab : AsyncBatcher) : AsyncBatcher :=
  let '(ab', remaining) := flush_from (pendingItems ab) ab in
  set_pendingItems remaining ab'.

(** The critical section at the end of [executeBatch] (lines 200-205). *)
Definition executeBatch_locked (i : nat) (ab : AsyncBatcher) : AsyncBatcher :=
  match batches ab !! i with
  | Some b =>
      let ab1 := set_executingCount (Int64.add (executingCount ab) (-1)) ab in
      let '(b', m) := reset b (assignments ab1) in
      flushPendingItems
        (set_batches (<[i := b']> (batches ab1)) (set_assignments m ab1))
  | None => ab
  end.

(** *** The batcher among its goroutines

    The batcher's state changes only inside the three critical sections
    that take [ab.mux]: [add] (one submitted item), the flush timer's
    callback, and the tail of [executeBatch].  A timer callback may run at
    any time, also after its slot was dispatched by size (stopping a timer
    is best effort). *)

Inductive op :=
  | OpAdd (item : BatchItem)
  | OpTimer (i : nat)
  | OpFinish (i : nat).

Definition is_executing (i : nat) (ab : AsyncBatcher) : bool :=
  match batches ab !! i with
  | Some b => match state b with batcherExecuting => true | batcherReady => false end
  | None => false
  end.

Definition critical (o : op) (ab : AsyncBatcher) : AsyncBatcher :=
  match o with
  | OpAdd item => add item ab
  | OpTimer i => conditionallyExecuteBatch i ab
  | OpFinish i => if is_executing i ab then executeBatch_locked i ab else ab
  end.

Definition criticals (ops : list op) (ab : AsyncBatcher) : AsyncBatcher :=
  foldl (fun ab o => critical o ab) ab ops.

(** The whole program state the batcher acts on: the batcher, the store of
    the batches its items point back to, and the traces of the calls it
    makes.  [panicked] records a nil dereference of a back pointer. *)
Record system := mkSystem {
  batcher : AsyncBatcher;
  store : gmap ptr Batch;
  executorCalls : list (list BatchItem);
  completeItemCalls : list ptr;
  terminalActions : list (ptr * terminal);
  panicked : bool
  }.

Definition set_batcher (ab : AsyncBatcher) (s : system) : system :=
  {| batcher := ab; store := store s; executorCalls := executorCalls s;
     completeItemCalls := completeItemCalls s;
     terminalActions := terminalActions s; panicked := panicked s |}.

(** [batchFor[S](item).completeItem()] of the loop in [executeBatch]. *)
Definition completeItem_at (p : ptr) (s : system) : system :=
  if panicked s then s
  else
    match store s !! p with
    | Some b =>
        let '(b', fired) := completeItem b in
        {| batcher := batcher s; store := <[p := b']> (store s);
           executorCalls := executorCalls s;
           completeItemCalls := completeItemCalls s ++ [p];
           terminalActions := terminalActions s ++ map (pair p) fired;
           panicked := false |}
    | None =>
        {| batcher := batcher s; store := store s;
           executorCalls := executorCalls s;
           completeItemCalls := completeItemCalls s;
           terminalActions := terminalActions s; panicked := true |}
    end.

(** [executeBatch] (lines 195-206), the goroutine of a dispatched slot: the executor call,
    the completion loop, then the critical section.  While the slot is
    Executing nothing else touches its items, so the three run as one
    transition. *)
Definition executeBatch (i : nat) (s : system) : system :=
  match batches (batcher s) !! i with
  | Some b =>
      match state b with
      | batcherExecuting =>
          let s1 :=
            {| batcher := batcher s; store := store s;
               executorCalls := executorCalls s ++ [items b];
               completeItemCalls := completeItemCalls s;
               terminalActions := terminalActions s; panicked := panicked s |} in
          let s2 :=
            foldl (fun s item => completeItem_at (batchOf item) s) s1 (items b) in
          if panicked s2 then s2
          else set_batcher (executeBatch_locked i (batcher s2)) s2
      | batcherReady => s
      end
  | None => s
  end.

Inductive event :=
  | EvAdd (item : BatchItem)   (* ab.add(item), one iteration of Add *)
  | EvTimer (i : nat)          (* the flush timer callback of slot i *)
  | EvExecute (i : nat).       (* the goroutine executeBatch of slot i *)

Definition step (e : event) (s : system) : system :=
  if panicked s then s
  else
    match e with
    | EvAdd item => set_batcher (add item (batcher s)) s
    | EvTimer i => set_batcher (conditionallyExecuteBatch i (batcher s)) s
    | EvExecute i => executeBatch i s
    end.

Definition run (evs : list event) (s : system) : system :=
  foldl (fun s e => step e s) s evs.

(** A program start: the batch store as the user built it and a new
    batcher. *)
Definition boot (h : gmap ptr Batch) (maxBatchSize maxConcurrentBatches delay : Z)
  : option system :=
  ab ← NewAsyncBatcher maxBatchSize maxConcurrentBatches delay;
  Some {| batcher := ab; store := h; executorCalls := [];
          completeItemCalls := []; terminalActions := []; panicked := false |}.

(** *** The key discipline

    The items of slot [i] (none when there is no such slot), and the
    statement that [assignments] and the slots agree: a key is assigned to
    a slot exactly when that slot holds an item with this key. *)
Definition items_at (l : list asyncBatch) (i : nat) : list BatchItem :=
  match l !! i with
  | Some b => items b
  | None => []
  end.

Definition agree (ab : AsyncBatcher) : Prop :=
  forall k i, assignments ab !! k = Some i <-> k ∈ Key <$> items_at (batches ab) i.

(** What the specification asks of every state of the batcher. *)
Record key_discipline (ab : AsyncBatcher) : Prop := {
  (* no key in two slots *)
  one_slot : forall i j bi bj k,
    batches ab !! i = Some bi -> batches ab !! j = Some bj ->
    k ∈ Key <$> items bi -> k ∈ Key <$> items bj -> i = j;
  (* an assigned key has exactly one slot that holds it and is its
     assignment *)
  assigned_slot : forall k, is_Some (assignments ab !! k) ->
    exists! i, assignments ab !! k = Some i /\
               exists b, batches ab !! i = Some b /\ k ∈ Key <$> items b;
  (* the reset of a slot removes the keys of its items and no other *)
  reset_removes : forall i b k, batches ab !! i = Some b ->
    snd (reset b (assignments ab)) !! k =
      if decide (k ∈ Key <$> items b) then None else assignments ab !! k;
  (* the keys it removes were assigned to this slot *)
  reset_own : forall i b k, batches ab !! i = Some b ->
    k ∈ Key <$> items b -> assignments ab !! k = Some i;
  (* a key assigned to another slot stays assigned to it *)
  reset_others : forall i j b k, batches ab !! i = Some b ->
    assignments ab !! k = Some j -> j <> i ->
    snd (reset b (assignments ab)) !! k = Some j
  }.

(** A property of every item on a slot. *)
Definition slots_ok (P : BatchItem -> Prop) (l : list asyncBatch) : Prop :=
  forall j x, x ∈ items_at l j -> P x.

(** An item of another batch than the one at [p]. *)
Definition foreign (p : ptr) (x : BatchItem) : Prop := batch x <> p.

(** The batch [b] at [p] has no item in the batcher, [completeItem] was not
    called for it and it fired nothing. *)
Definition untouched (p : ptr) (b : Batch) (s : system) : Prop :=
  slots_ok (foreign p) (batches (batcher s)) /\
  Forall (foreign p) (pendingItems (batcher s)) /\
  (p ∉ completeItemCalls s) /\
  (forall t, (p, t) ∉ terminalActions s) /\
  store s !! p = Some b.

(** Items handed to [add] come out of batches of the store, whose items
    point back to them ([Batch.Add] and [Batch.AddKeyValue] set the back
    pointer). *)
Definition submitted_from (h : gmap ptr Batch) (e : event) : Prop :=
  match e with
  | EvAdd item => exists bq, h !! batch item = Some bq /\ item ∈ Items bq
  | _ => True
  end.

End WithKeys.

Arguments BatchItem : clear implicits.
Arguments system K {_ _} V.
Arguments event : clear implicits.
Arguments op : clear implicits.
Arguments terminal : clear implicits.
Arguments Batch : clear implicits.
Arguments asyncBatch : clear implicits.
Arguments AsyncBatcher K {_ _} V.

End Batcher.

(** ** The partition worker ([partition_worker.go]) *)

Module Worker.

Definition producerRef := nat.   (* a non-nil producer handle *)

(** [kgo.Record]: the worker reads only the offset. *)
Record kgoRecord := mkRecord { Offset : Z; payload : nat }.

(** Modelled from the spec: the declaration of [EventContext] is not among
    the sources.  The spec gives it the input record (absent for an
    interjection), the cached producer handle, and an offset that is the
    record's offset, or -1 for an interjection. *)
Record EventContext := mkEC {
  ec_record : option kgoRecord;
  producer : option producerRef
}.

Definition EventContext_Offset (ec : EventContext) : Z :=
  match ec_record ec with
  | Some r => Offset r
  | None => (-1)%Z
  end.

Definition EventContext_Input (ec : EventContext) : option kgoRecord := ec_record ec.

Definition newEventContext (record : kgoRecord) : EventContext :=
  {| ec_record := Some record; producer := None |}.

Definition newInterjectionContext : EventContext :=
  {| ec_record := None; producer := None |}.

Definition set_producer (p : option producerRef) (ec : EventContext) : EventContext :=
  {| ec_record := ec_record ec; producer := p |}.

Record asyncJob := mkJob {
  ctx : EventContext;
  finalize : unit -> ExecutionState * option error
}.

(** An interjection as the worker uses it: the one-off [callback] (nil or
    not) and the user's interjector behind [interject]. *)
Record interjection := mkInterjection {
  ij_id : nat;
  ij_callback : option cbref;
  interject : EventContext -> ExecutionState
}.

(** Calls the worker makes into its collaborators, in program order. *)
Inductive effect :=
| AddEventContext (ec : EventContext)      (* pw.eosProducer.addEventContext(ec) *)
| AddInterjection (ec : EventContext)      (* pw.eosProducer.addInterjection(ec) *)
| UserHandler (ec : EventContext) (record : option kgoRecord)
                                           (* pw.eventSource.handleEvent(ec, record) *)
| Interjector (id : nat) (ec : EventContext)   (* inter.interject(ec) *)
| CtxComplete (ec : EventContext)          (* ec.complete() *)
| LogErrorf (err : error)                  (* log.Errorf *)
| JobFinalize (job : asyncJob)             (* job.finalize() *)
| InterjectionCallback (cb : cbref)        (* inter.callback() *)
| Tick (id : nat)                          (* ij.tick() *)
| Cancel (id : nat)                        (* ij.cancel() *)
| GoWaitForRevocation                      (* go pw.waitForRevocation() *)
| SendStopped.                             (* pw.stopped <- struct{}{} *)

(** The fields of [partitionWorker] the modelled functions read or write.
    Channels are their buffers, oldest element first; [revocationWaiter]
    is the WaitGroup's counter; [revoked] is [!runStatus.Running()]. *)
Record partitionWorker := mkWorker {
  partitionInput : list (list (option kgoRecord));
  eventInput : list EventContext;
  asyncFullReply : bool;
  revoked : bool;
  pending : Z;
  processed : Z;
  highestOffset : Z;
  revocationWaiter : Z;
  trace : list effect
}.

Definition newPartitionWorker : partitionWorker :=
  {| partitionInput := []; eventInput := []; asyncFullReply := false;
     revoked := false; pending := 0; processed := 0; highestOffset := -1;
     revocationWaiter := 0; trace := [] |}.

Definition log (e : effect) (pw : partitionWorker) : partitionWorker :=
  {| partitionInput := partitionInput pw; eventInput := eventInput pw;
     asyncFullReply := asyncFullReply pw; revoked := revoked pw;
     pending := pending pw; processed := processed pw;
     highestOffset := highestOffset pw;
     revocationWaiter := revocationWaiter pw; trace := trace pw ++ [e] |}.

Definition set_partitionInput (l : list (list (option kgoRecord))) (pw : partitionWorker) :=
  {| partitionInput := l; eventInput := eventInput pw;
     asyncFullReply := asyncFullReply pw; revoked := revoked pw;
     pending := pending pw; processed := processed pw;
     highestOffset := highestOffset pw;
     revocationWaiter := revocationWaiter pw; trace := trace pw |}.

Definition set_eventInput (l : list EventContext) (pw : partitionWorker) :=
  {| partitionInput := partitionInput pw; eventInput := l;
     asyncFullReply := asyncFullReply pw; revoked := revoked pw;
     pending := pending pw; processed := processed pw;
     highestOffset := highestOffset pw;
     revocationWaiter := revocationWaiter pw; trace := trace pw |}.

Definition set_asyncFullReply (f : bool) (pw : partitionWorker) :=
  {| partitionInput := partitionInput pw; eventInput := eventInput pw;
     asyncFullReply := f; revoked := revoked pw;
     pending := pending pw; processed := processed pw;
     highestOffset := highestOffset pw;
     revocationWaiter := revocationWaiter pw; trace := trace pw |}.

Definition set_pending (n : Z) (pw : partitionWorker) :=
  {| partitionInput := partitionInput pw; eventInput := eventInput pw;
     asyncFullReply := asyncFullReply pw; revoked := revoked pw;
     pending := n; processed := processed pw;
     highestOffset := highestOffset pw;
     revocationWaiter := revocationWaiter pw; trace := trace pw |}.

Definition set_processed (n : Z) (pw : partitionWorker) :=
  {| partitionInput := partitionInput pw; eventInput := eventInput pw;
     asyncFullReply := asyncFullReply pw; revoked := revoked pw;
     pending := pending pw; processed := n;
     highestOffset := highestOffset pw;
     revocationWaiter := revocationWaiter pw; trace := trace pw |}.

Definition set_highestOffset (n : Z) (pw : partitionWorker) :=
  {| partitionInput := partitionInput pw; eventInput := eventInput pw;
     asyncFullReply := asyncFullReply pw; revoked := revoked pw;
     pending := pending pw; processed := processed pw;
     highestOffset := n;
     revocationWaiter := revocationWaiter pw; trace := trace pw |}.

Definition set_revocationWaiter (n : Z) (pw : partitionWorker) :=
  {| partitionInput := partitionInput pw; eventInput := eventInput pw;
     asyncFullReply := asyncFullReply pw; revoked := revoked pw;
     pending := pending pw; processed := processed pw;
     highestOffset := highestOffset pw;
     revocationWaiter := n; trace := trace pw |}.

(** [revocationWaiter.Add] and [.Done]. *)
Definition waiter_Add (n : Z) (pw : partitionWorker) : partitionWorker :=
  set_revocationWaiter (revocationWaiter pw + n) pw.
Definition waiter_Done (pw : partitionWorker) : partitionWorker :=
  set_revocationWaiter (revocationWaiter pw - 1) pw.

Definition isRevoked (pw : partitionWorker) : bool := revoked pw.

(** [add] (lines 99-105): the records of a poll handed to the worker. *)
Definition add (records : list (option kgoRecord)) (pw : partitionWorker) : partitionWorker :=
  if isRevoked pw then pw
  else
    set_partitionInput (partitionInput pw ++ [records])
      (set_pending (Int64.add (pending pw) (Z.of_nat (length records))) pw).

(** One iteration of the loop of [scheduleTxnAndExecution] (lines 139-150);
    [None] is a nil record. *)
Definition schedule_record (pw : partitionWorker) (record : option kgoRecord)
  : partitionWorker :=
  match record with
  | Some r =>
      if (Offset r >=? highestOffset pw)%Z then
        let ec := newEventContext r in
        let pw := log (AddEventContext ec) pw in
        set_eventInput (eventInput pw ++ [ec]) pw
      else waiter_Done pw
  | None => waiter_Done pw
  end.

Definition scheduleTxnAndExecution (records : list (option kgoRecord))
    (pw : partitionWorker) : partitionWorker :=
  foldl schedule_record (waiter_Add (Z.of_nat (length records)) pw) records.

(** The records case of the [select] in [pushRecords]. *)
Definition pushRecords_records (pw : partitionWorker) : partitionWorker :=
  match partitionInput pw with
  | records :: rest =>
      let pw := set_partitionInput rest pw in
      if isRevoked pw then pw else scheduleTxnAndExecution records pw
  | [] => pw
  end.

Section WithEventSource.

(** The user's event processor behind [pw.eventSource.handleEvent]. *)
Variable eventSource_handleEvent :
  EventContext -> option kgoRecord -> ExecutionState * option error.

(** [forwardToEventSource] (lines 258-272); [delivered] is what the read of
    [ec.producerChan] yields, [None] for nil. *)
Definition forwardToEventSource (delivered : option producerRef)
    (ec : EventContext) (pw : partitionWorker) : partitionWorker :=
  let ec := set_producer delivered ec in
  match producer ec with
  | None => pw
  | Some _ =>
      let record := EventContext_Input ec in
      let '(state, err) := eventSource_handleEvent ec record in
      let pw := log (UserHandler ec record) pw in
      match err with
      | Some e => log (LogErrorf e) pw
      | None =>
          match state with
          | Complete => log (CtxComplete ec) pw
          | _ => pw
          end
      end
  end.

(** [handleEvent] (lines 249-256). *)
Definition handleEvent (delivered : option producerRef)
    (ec : EventContext) (pw : partitionWorker) : partitionWorker :=
  let offset := EventContext_Offset ec in
  let pw := set_pending (Int64.add (pending pw) (-1)) pw in
  let pw := forwardToEventSource delivered ec pw in
  let pw := set_highestOffset (Int64.add offset 1) pw in
  set_processed (Int64.add (processed pw) 1) pw.

(** [handleInterjection] (lines 230-247). *)
Definition handleInterjection (delivered : option producerRef)
    (inter : interjection) (pw : partitionWorker) : partitionWorker :=
  if isRevoked pw then
    match ij_callback inter with
    | Some cb => log (InterjectionCallback cb) pw
    | None => pw
    end
  else
    let pw := waiter_Add 1 pw in
    let ec := newInterjectionContext in
    let pw := log (AddInterjection ec) pw in
    let ec := set_producer delivered ec in
    match producer ec, ij_callback inter with
    | None, Some cb => log (InterjectionCallback cb) pw
    | None, None => pw
    | Some _, _ =>
        let pw := log (Interjector (ij_id inter) ec) pw in
        match interject inter ec with
        | Complete => log (CtxComplete ec) pw
        | _ => pw
        end
    end.

(** What the [select] of the loop in [work] received. *)
Inductive message :=
| FromEventInput (ec : EventContext) (delivered : option producerRef)
| FromAsyncJobs (job : asyncJob)
| FromInterjectionChannel (ij : interjection) (delivered : option producerRef)
| FromStopSignal
| FromRevokedSignal.

(** Whether the [for] loop goes round again or [work] returns. *)
Inductive control := Continue | Return.

(** One iteration of the loop in [work] (lines 167-196). *)
Definition work_iteration (ijPtrs : list interjection) (m : message)
    (pw : partitionWorker) : partitionWorker * control :=
  match m with
  | FromEventInput ec delivered => (handleEvent delivered ec pw, Continue)
  | FromAsyncJobs job =>
      let '(state, _) := finalize job tt in
      let pw := log (JobFinalize job) pw in
      let pw :=
        match state with
        | Complete => log (CtxComplete (ctx job)) pw
        | _ => pw
        end in
      (* the non-blocking send on asyncFullReply, capacity one *)
      (set_asyncFullReply true pw, Continue)
  | FromInterjectionChannel ij delivered =>
      (log (Tick (ij_id ij)) (handleInterjection delivered ij pw), Continue)
  | FromStopSignal =>
      (log GoWaitForRevocation
         (foldl (fun pw ij => log (Cancel (ij_id ij)) pw) pw ijPtrs),
       Continue)
  | FromRevokedSignal => (log SendStopped pw, Return)
  end.

(** The loop over the messages the [select] receives, until [work]
    returns. *)
Fixpoint work_loop (ijPtrs : list interjection) (ms : list message)
    (pw : partitionWorker) : partitionWorker * control :=
  match ms with
  | [] => (pw, Continue)
  | m :: rest =>
      match work_iteration ijPtrs m pw with
      | (pw', Continue) => work_loop ijPtrs rest pw'
      | (pw', Return) => (pw', Return)
      end
  end.

End WithEventSource.

End Worker.

(** ** What the statements below observe *)

Module Observe.

Import Worker.

(** The calls of the user's event handler in a trace, in order. *)
Definition handler_calls (t : list effect) : list (EventContext * option kgoRecord) :=
  omap (fun e => match e with UserHandler ec r => Some (ec, r) | _ => None end) t.

(** The errors written to the log in a trace. *)
Definition logged_errors (t : list effect) : list error :=
  omap (fun e => match e with LogErrorf err => Some err | _ => None end) t.

(** The contexts marked complete in a trace. *)
Definition completions (t : list effect) : list EventContext :=
  omap (fun e => match e with CtxComplete ec => Some ec | _ => None end) t.

(** The contexts registered with the producer pool in a trace. *)
Definition registered (t : list effect) : list EventContext :=
  omap (fun e => match e with AddEventContext ec => Some ec | _ => None end) t.

(** A record that is there and whose offset is at least [h]. *)
Definition fresh (h : Z) (record : option kgoRecord) : option kgoRecord :=
  match record with
  | Some r => if (h <=? Offset r)%Z then Some r else None
  | None => None
  end.

(** A handler that completes every event, and a job whose [finalize]
    reports an error, for the examples. *)
Definition completing_handler (ec : EventContext) (r : option kgoRecord)
  : ExecutionState * option error := (Complete, None).

Definition failing_job : asyncJob :=
  {| ctx := newEventContext {| Offset := 5; payload := 0 |};
     finalize := fun _ => (Incomplete, Some 42) |}.

End Observe.

(** ** Concrete batches and runs *)

Module Examples.

Import Batcher.

(** Two items of the batch at address 0, with different keys. *)
Definition item_a : BatchItem nat nat := {| batch := 0; Key := 1; Value := 10 |}.
Definition item_b : BatchItem nat nat := {| batch := 0; Key := 2; Value := 20 |}.

Definition batch_ab : Batch nat nat :=
  Batch_Add 0 [item_a; item_b] (NewBatch 7 None).

Definition store_ab : gmap ptr (Batch nat nat) := {[ 0 := batch_ab ]}.

(** A store with an empty batch at address 0 and a batch of two items at
    address 1. *)
Definition item_c : BatchItem nat nat := {| batch := 1; Key := 1; Value := 30 |}.
Definition item_d : BatchItem nat nat := {| batch := 1; Key := 1; Value := 40 |}.

Definition batch_empty : Batch nat nat := NewBatch 7 None.

Definition store_empty_and_cd : gmap ptr (Batch nat nat) :=
  <[ 1 := Batch_Add 1 [item_c; item_d] (NewBatch 8 (Some 3)) ]>
    {[ 0 := batch_empty ]}.

(** A batcher of two slots of two items. *)
Definition two_slots : AsyncBatcher nat nat :=
  {| batches := [empty_slot; empty_slot]; assignments := ∅;
     pendingItems := []; executingCount := 0; MaxBatchSize := 2;
     BatchDelay := 5000000 |}.

Definition busy_ops : list (op nat nat) :=
  [OpAdd item_a; OpAdd item_c; OpAdd item_b; OpAdd item_d; OpTimer 1;
   OpFinish 0; OpAdd item_a; OpFinish 1].

End Examples.

(** ** The slots of a batcher, one at a time *)

Module Slots.

Section WithKeys.

Context {K : Type} `{Countable K} {V : Type}.

Import Batcher.

(** What [conditionallyExecuteBatch] does to the slot it is called on. *)
Definition dispatch (b : asyncBatch K V) : asyncBatch K V :=
  match state b with
  | batcherReady => {| items := items b; state := batcherExecuting; flushTimer := false |}
  | batcherExecuting => b
  end.

(** What [addToBatch] does to the slot it is called on, [M] being
    [MaxBatchSize]. *)
Definition take_item (M : Z) (item : BatchItem K V) (b : asyncBatch K V) : asyncBatch K V :=
  let b1 := asyncBatch_add item b in
  if (Z.of_nat (length (items b1)) =? M)%Z then dispatch b1
  else if flushTimer b1 then b1
  else arm_timer b1.

(** The number of slots in state Executing. *)
Definition weight (b : asyncBatch K V) : nat :=
  match state b with
  | batcherExecuting => 1
  | batcherReady => 0
  end.

Fixpoint executing_slots (l : list (asyncBatch K V)) : nat :=
  match l with
  | [] => 0
  | b :: rest => weight b + executing_slots rest
  end.

(** A slot as the batcher keeps it: no timer on an Executing slot; a Ready
    slot has its timer armed exactly when it holds items; and, for a
    [MaxBatchSize] of at least one, a Ready slot is below that size and no
    slot is above it. *)
Definition slot_inv (M : Z) (b : asyncBatch K V) : Prop :=
  (state b = batcherExecuting -> flushTimer b = false) /\
  (state b = batcherReady -> (flushTimer b = true <-> items b <> [])) /\
  ((1 <= M)%Z ->
     (state b = batcherReady -> (Z.of_nat (length (items b)) < M)%Z) /\
     (Z.of_nat (length (items b)) <= M)%Z).

Definition batcher_inv (ab : AsyncBatcher K V) : Prop :=
  Forall (slot_inv (MaxBatchSize ab)) (batches ab) /\
  executingCount ab = Z.of_nat (executing_slots (batches ab)) /\
  (Z.of_nat (length (batches ab)) <= Int64.max_signed)%Z.

(** Every item the batcher holds: those on the slots, slot by slot, then
    the pending queue. *)
Definition all_items (ab : AsyncBatcher K V) : list (BatchItem K V) :=
  concat (items <$> batches ab) ++ pendingItems ab.

(** An item that went to the executor or is still with the batcher. *)
Definition held (s : system K V) (x : BatchItem K V) : Prop :=
  x ∈ concat (executorCalls s) \/ x ∈ all_items (batcher s).

(** Every item in the batcher or in a call of the executor has the
    property [P], and [completeItem] was only called through the back
    pointer of such an item. *)
Definition sys_prov (P : BatchItem K V -> Prop) (s : system K V) : Prop :=
  slots_ok P (batches (batcher s)) /\
  Forall P (pendingItems (batcher s)) /\
  Forall (Forall P) (executorCalls s) /\
  Forall (fun p => exists x, P x /\ batchOf x = p) (completeItemCalls s).

(** The batcher invariant, and no call of the executor above [M] items. *)
Definition sys_sized (M : Z) (s : system K V) : Prop :=
  batcher_inv (batcher s) /\ MaxBatchSize (batcher s) = M /\
  Forall (fun call => (Z.of_nat (length call) <= M)%Z) (executorCalls s).

(** The critical section an event runs. *)
Definition op_of (e : event K V) : op K V :=
  match e with
  | EvAdd item => OpAdd item
  | EvTimer i => OpTimer i
  | EvExecute i => OpFinish i
  end.

(** Why an item may wait in the pending queue: when some slot is Ready,
    the item's key is assigned to a slot that is Executing. *)
Definition has_ready (ab : AsyncBatcher K V) : Prop :=
  exists i b, batches ab !! i = Some b /\ state b = batcherReady.

Definition key_in_flight (ab : AsyncBatcher K V) (x : BatchItem K V) : Prop :=
  exists i b, assignments ab !! Key x = Some i /\
              batches ab !! i = Some b /\ state b = batcherExecuting.

Definition waits (ab : AsyncBatcher K V) (x : BatchItem K V) : Prop :=
  has_ready ab -> key_in_flight ab x.

(** The three invariants of the batcher together. *)
Definition settled (ab : AsyncBatcher K V) : Prop :=
  agree ab /\ batcher_inv ab /\ Forall (waits ab) (pendingItems ab).

(** The items a run has submitted, in order. *)
Definition submitted (evs : list (event K V)) : list (BatchItem K V) :=
  omap (fun e => match e with EvAdd item => Some item | _ => None end) evs.

End WithKeys.

End Slots.

(** ** Building batches, and runs of the worker *)

Module Scenarios.

Section Building.

Context {K : Type} `{Countable K} {V : Type}.

Import Batcher.

(** A call of [Batch.Add] or of [Batch.AddKeyValue]. *)
Inductive build_op :=
| CallAdd (new : list (BatchItem K V))
| CallAddKeyValue (key : K) (value : V).

Definition build_step (p : ptr) (b : Batch K V) (o : build_op) : Batch K V :=
  match o with
  | CallAdd new => Batch_Add p new b
  | CallAddKeyValue key value => Batch_AddKeyValue p key value b
  end.

(** The batch at [p] after [NewBatch] and a sequence of such calls. *)
Definition build (p : ptr) (ec : ecref) (cb : option cbref) (ops : list build_op)
  : Batch K V :=
  foldl (build_step p) (NewBatch ec cb) ops.

(** The keys and values the calls pass, in order. *)
Definition passed (o : build_op) : list (K * V) :=
  match o with
  | CallAdd new => (fun x => (Key x, Value x)) <$> new
  | CallAddKeyValue key value => [(key, value)]
  end.

End Building.

Import Worker.

(** The calls of one-off callbacks and of the interjector in a trace. *)
Definition callback_calls (t : list effect) : list cbref :=
  omap (fun e => match e with InterjectionCallback cb => Some cb | _ => None end) t.

Definition interjector_calls (t : list effect) : list (nat * EventContext) :=
  omap (fun e => match e with Interjector id ec => Some (id, ec) | _ => None end) t.

(** The handler call a handled context gives rise to: none when the
    producer pool delivers nil. *)
Definition handled_call (delivered : EventContext -> option producerRef)
    (ec : EventContext) : option (EventContext * option kgoRecord) :=
  match delivered ec with
  | Some p => Some (set_producer (Some p) ec, ec_record ec)
  | None => None
  end.

(** The worker loop taking the contexts [ecs] from [eventInput], the
    producer pool delivering [delivered ec] to each. *)
Definition event_messages (delivered : EventContext -> option producerRef)
    (ecs : list EventContext) : list message :=
  (fun ec => FromEventInput ec (delivered ec)) <$> ecs.

(** A poll from end to end on a worker with empty channels: [add] hands the
    records over, [pushRecords] schedules them, and the worker loop handles
    every context sent on [eventInput]. *)
Definition poll_round
    (handler : EventContext -> option kgoRecord -> ExecutionState * option error)
    (delivered : EventContext -> option producerRef)
    (records : list (option kgoRecord)) (pw : partitionWorker) : partitionWorker :=
  let pw1 := pushRecords_records (add records pw) in
  fst (work_loop handler [] (event_messages delivered (eventInput pw1))
         (set_eventInput [] pw1)).

End Scenarios.

(** ** More concrete states *)

Module MoreExamples.

Import Batcher Examples.

(** One item on the first of two slots of size two: the slot is Ready and
    its timer is armed. *)
Definition one_add : list (op nat nat) := [OpAdd item_a].

Definition slot_a : asyncBatch nat nat :=
  {| items := [item_a]; state := batcherReady; flushTimer := true |}.

(** Two items fill the first slot, which is dispatched. *)
Definition two_adds : list (op nat nat) := [OpAdd item_a; OpAdd item_b].

Definition slot_ab : asyncBatch nat nat :=
  {| items := [item_a; item_b]; state := batcherExecuting; flushTimer := false |}.

(** After them an item whose key is on the dispatched slot is submitted:
    it waits in the pending queue although the second slot is Ready. *)
Definition in_flight_adds : list (op nat nat) :=
  [OpAdd item_a; OpAdd item_b; OpAdd item_c].

(** The run of the batch of [item_a] and [item_b] through one slot of size
    one, up to the end of the first execution. *)
Definition run_ab : list (event nat nat) :=
  [EvAdd item_a; EvAdd item_b; EvExecute 0].

Import Worker.

(** A revoked worker with one slice still queued. *)
Definition revoked_worker : partitionWorker :=
  {| partitionInput := [[Some (mkRecord 12 0)]]; eventInput := [];
     asyncFullReply := false; revoked := true; pending := 0; processed := 0;
     highestOffset := 10; revocationWaiter := 0; trace := [] |}.

(** A worker at offset 10 and a poll with two stale records, a nil record
    and two fresh ones. *)
Definition worker_at_10 : partitionWorker :=
  set_highestOffset 10 newPartitionWorker.

Definition poll_8_to_11 : list (option kgoRecord) :=
  [Some (mkRecord 8 0); Some (mkRecord 9 0); None;
   Some (mkRecord 10 0); Some (mkRecord 11 0)].

Definition always_delivered (ec : EventContext) : option producerRef := Some 1%nat.

End MoreExamples.

(** Fold the list instance of [omap] back after simplification. *)
Ltac fold_omap :=
  repeat match goal with
         | |- context [list_omap ?A ?B ?f ?l] =>
             change (list_omap A B f l) with (omap f l)
         end.

(** * Properties *)

(** ** Machine integers *)

Section Int64Facts.

Import Int64.

Lemma wrap_in_range z : in_range z -> wrap z = z.
Proof.
  unfold in_range, wrap, min_signed, max_signed. intros Hz.
  rewrite Z.mod_small; lia.
Qed.

Lemma wrap_range z : in_range (wrap z).
Proof.
  unfold in_range, wrap, min_signed, max_signed.
  pose proof (Z.mod_pos_bound (z + 2 ^ 63) (2 ^ 64) ltac:(lia)). lia.
Qed.

(** Counting up from [c] in [int64]: after [n] increments the counter
    holds the image of [c + n]. *)
Lemma wrap_add_wrap a b : wrap (wrap a + b) = wrap (a + b).
Proof.
  unfold wrap. f_equal.
  replace ((a + 2 ^ 63) mod 2 ^ 64 - 2 ^ 63 + b + 2 ^ 63)%Z
    with ((a + 2 ^ 63) mod 2 ^ 64 + b)%Z by lia.
  replace (a + b + 2 ^ 63)%Z with ((a + 2 ^ 63) + b)%Z by lia.
  apply Zplus_mod_idemp_l.
Qed.

(** Two integers have the same [int64] image only when they differ by a
    multiple of [2 ^ 64]. *)
Lemma wrap_eq_inv a b :
  wrap a = wrap b -> exists q : Z, (a = b + q * 2 ^ 64)%Z.
Proof.
  unfold wrap. intros Hw.
  assert (Hm : ((a + 2 ^ 63) mod 2 ^ 64 = (b + 2 ^ 63) mod 2 ^ 64)%Z) by lia.
  exists ((a + 2 ^ 63) / 2 ^ 64 - (b + 2 ^ 63) / 2 ^ 64)%Z.
  pose proof (Z.div_mod (a + 2 ^ 63) (2 ^ 64) ltac:(lia)).
  pose proof (Z.div_mod (b + 2 ^ 63) (2 ^ 64) ltac:(lia)).
  lia.
Qed.

End Int64Facts.

(** ** Batch completion fan-in *)

Section BatchFacts.

Import Batcher.

Context {K : Type} `{Countable K} {V : Type}.

Implicit Types b : Batch K V.

Lemma completeItem_fields b :
  Items (fst (completeItem b)) = Items b /\
  callback (fst (completeItem b)) = callback b /\
  EventContext (fst (completeItem b)) = EventContext b /\
  completed (fst (completeItem b)) = Int64.add (completed b) 1.
Proof.
  unfold completeItem. cbv zeta.
  destruct (Int64.add (completed b) 1 =? _)%Z;
    [destruct (callback b) eqn:E|]; simpl; rewrite ?E; auto.
Qed.

(** One call on a counter that stands at [c] calls so far. *)
Lemma completeItem_fires b (c : Z) :
  completed b = Int64.wrap c ->
  (0 <= c)%Z -> (c + 1 < 2 ^ 64)%Z ->
  (0 < Z.of_nat (length (Items b)) <= Int64.max_signed)%Z ->
  snd (completeItem b) =
    if decide (c + 1 = Z.of_nat (length (Items b)))%Z then [terminal_of b] else [].
Proof.
  intros Hc Hc0 Hc1 Hn. unfold completeItem, terminal_of, Int64.add.
  rewrite Hc, wrap_add_wrap.
  destruct (decide (c + 1 = Z.of_nat (length (Items b)))%Z) as [Heq|Hne].
  - rewrite Heq, wrap_in_range, Z.eqb_refl.
    + by destruct (callback b).
    + unfold Int64.in_range, Int64.min_signed in *. lia.
  - destruct (Int64.wrap (c + 1) =? Z.of_nat (length (Items b)))%Z eqn:Hw; [|done].
    exfalso. apply Z.eqb_eq in Hw.
    rewrite <- (wrap_in_range (Z.of_nat (length (Items b)))) in Hw.
    + apply wrap_eq_inv in Hw as [q Hq].
      unfold Int64.max_signed in Hn. nia.
    + unfold Int64.in_range, Int64.min_signed, Int64.max_signed in *. lia.
Qed.

Lemma completeItem_times_from b (c : Z) (k : nat) :
  completed b = Int64.wrap c ->
  (0 <= c)%Z -> (c + Z.of_nat k < 2 ^ 64)%Z ->
  (0 < Z.of_nat (length (Items b)) <= Int64.max_signed)%Z ->
  snd (completeItem_times k b) =
    (if decide (c < Z.of_nat (length (Items b)) <= c + Z.of_nat k)%Z
     then [terminal_of b] else []) /\
  completed (fst (completeItem_times k b)) = Int64.wrap (c + Z.of_nat k) /\
  Items (fst (completeItem_times k b)) = Items b.
Proof.
  revert b c. induction k as [|k IH]; intros b c Hc Hc0 Hck Hn.
  - simpl. rewrite Z.add_0_r. split_and!; [|done|done].
    destruct (decide _) as [Hd|]; [lia|done].
  - simpl.
    pose proof (completeItem_fires b c Hc Hc0 ltac:(lia) Hn) as Hfire.
    destruct (completeItem_fields b) as (HI & Hcb & Hec & Hcnt).
    destruct (completeItem b) as [b1 fired1] eqn:Hstep. simpl in *.
    assert (Hc1 : completed b1 = Int64.wrap (c + 1)).
    { rewrite Hcnt. unfold Int64.add. by rewrite Hc, wrap_add_wrap. }
    specialize (IH b1 (c + 1)%Z Hc1 ltac:(lia) ltac:(lia)).
    rewrite HI in IH. specialize (IH Hn).
    destruct (completeItem_times k b1) as [b2 fired2]. simpl in *.
    destruct IH as (Hf2 & Hc2 & HI2).
    replace (c + 1 + Z.of_nat k)%Z with (c + Z.pos (Pos.of_succ_nat k))%Z in * by lia.
    split_and!; [|done|done].
    rewrite Hfire, Hf2.
    assert (Ht : terminal_of b1 = terminal_of b).
    { unfold terminal_of. by rewrite Hcb, Hec. }
    rewrite Ht.
    repeat destruct (decide _); simpl; try done; lia.
Qed.

(** C3: on a batch with items whose counter starts at zero, [k] calls of
    [completeItem] fire nothing while [k] is below the number of items, and
    from the call that brings the counter to that number on exactly one
    action, once: the user's callback when the batch has one, the default
    completion of its event context otherwise.  Every call after that one
    fires nothing.  ([k] ranges over the call counts an [int64] counter
    tells apart.) *)
Theorem completeItem_terminal_once b (k : nat) :
  completed b = 0%Z ->
  (0 < length (Items b))%nat ->
  (Z.of_nat (length (Items b)) <= Int64.max_signed)%Z ->
  (Z.of_nat k < 2 ^ 64)%Z ->
  snd (completeItem_times k b) =
    (if decide (length (Items b) <= k)%nat then [terminal_of b] else []) /\
  (terminal_of b =
     match callback b with
     | Some cb => RunCallback cb
     | None => AsyncJobComplete (EventContext b) (Complete, None)
     end) /\
  (forall j, (k <= j)%nat -> (Z.of_nat j < 2 ^ 64)%Z -> (length (Items b) <= k)%nat ->
     snd (completeItem_times j b) = snd (completeItem_times k b)).
Proof.
  intros Hc Hpos Hmax Hk.
  assert (Hgen : forall j, (Z.of_nat j < 2 ^ 64)%Z ->
            snd (completeItem_times j b) =
              (if decide (length (Items b) <= j)%nat then [terminal_of b] else [])).
  { intros j Hj.
    destruct (completeItem_times_from b 0 j) as (Hf & _); try lia.
    - by rewrite Hc.
    - rewrite Hf. repeat destruct (decide _); try done; lia. }
  split_and!.
  - by apply Hgen.
  - reflexivity.
  - intros j Hkj Hj Hn. rewrite !Hgen by lia.
    repeat destruct (decide _); try done; lia.
Qed.


End BatchFacts.

(** ** The partition worker *)

Section WorkerFacts.

Import Worker Observe.

Variable handler : EventContext -> option kgoRecord -> ExecutionState * option error.

Lemma omap_snoc {A B} (f : A -> option B) (l : list A) (x : A) :
  omap f (l ++ [x]) = omap f l ++ match f x with Some y => [y] | None => [] end.
Proof. rewrite omap_app. simpl. by destruct (f x). Qed.

(** The loop of [scheduleTxnAndExecution], from any worker state. *)
Lemma schedule_fold records pw :
  let pw' := foldl schedule_record pw records in
  let forwarded := newEventContext <$> omap (fresh (highestOffset pw)) records in
  eventInput pw' = eventInput pw ++ forwarded /\
  trace pw' = trace pw ++ (AddEventContext <$> forwarded) /\
  revocationWaiter pw' =
    (revocationWaiter pw - (Z.of_nat (length records) - Z.of_nat (length forwarded)))%Z /\
  highestOffset pw' = highestOffset pw /\
  pending pw' = pending pw /\ processed pw' = processed pw /\
  partitionInput pw' = partitionInput pw.
Proof.
  revert pw. induction records as [|record records IH]; intros pw; simpl.
  - rewrite !app_nil_r. repeat split; lia.
  - specialize (IH (schedule_record pw record)). simpl in IH.
    destruct IH as (He & Ht & Hw & Hh & Hp & Hq & Hi).
    rewrite He, Ht, Hw, Hh, Hp, Hq, Hi. clear He Ht Hw Hh Hp Hq Hi.
    destruct record as [r|]; simpl.
    + rewrite Z.geb_leb. destruct (highestOffset pw <=? Offset r)%Z eqn:Hfresh; simpl.
      * rewrite <- !app_assoc. simpl.
        repeat split; try reflexivity. rewrite !length_fmap. fold_omap. lia.
      * repeat split; try reflexivity. rewrite !length_fmap. fold_omap. lia.
    + repeat split; try reflexivity. rewrite !length_fmap. fold_omap. lia.
Qed.

Lemma registered_add (l : list EventContext) :
  omap (fun e => match e with AddEventContext ec => Some ec | _ => None end) (AddEventContext <$> l) = l.
Proof. induction l as [|ec l IH]; simpl; [done|]. f_equal. exact IH. Qed.

Lemma handler_calls_add (l : list EventContext) :
  omap (fun e => match e with UserHandler ec r => Some (ec, r) | _ => None end)
    (AddEventContext <$> l) = [].
Proof. induction l as [|ec l IH]; simpl; [done|]. exact IH. Qed.

Lemma logged_errors_add (l : list EventContext) :
  omap (fun e => match e with LogErrorf err => Some err | _ => None end)
    (AddEventContext <$> l) = [].
Proof. induction l as [|ec l IH]; simpl; [done|]. exact IH. Qed.

(** C6: [scheduleTxnAndExecution] forwards exactly the records whose offset
    is at least [highestOffset], in their order: for each it builds an event
    context, registers it with the producer pool and sends it on
    [eventInput]; every other record of the slice is dropped, without a call
    of the user's handler or a log entry, and takes one off the revocation
    waiter, which the call first raised by the length of the slice.  So
    every context that reaches the worker loop has an offset that was not
    stale. *)
Theorem scheduleTxnAndExecution_forwards_fresh records pw :
  let pw' := scheduleTxnAndExecution records pw in
  let kept := omap (fresh (highestOffset pw)) records in
  let dropped := (Z.of_nat (length records) - Z.of_nat (length kept))%Z in
  eventInput pw' = eventInput pw ++ (newEventContext <$> kept) /\
  trace pw' = trace pw ++ (AddEventContext <$> (newEventContext <$> kept)) /\
  registered (trace pw') = registered (trace pw) ++ (newEventContext <$> kept) /\
  handler_calls (trace pw') = handler_calls (trace pw) /\
  logged_errors (trace pw') = logged_errors (trace pw) /\
  revocationWaiter pw' =
    (revocationWaiter pw + Z.of_nat (length records) - dropped)%Z /\
  (forall r, r ∈ kept <-> Some r ∈ records /\ (highestOffset pw <= Offset r)%Z) /\
  (forall ec, ec ∈ drop (length (eventInput pw)) (eventInput pw') ->
              (highestOffset pw <= EventContext_Offset ec)%Z).
Proof.
  intros pw' kept dropped. subst pw' dropped.
  unfold scheduleTxnAndExecution.
  pose proof (schedule_fold records (waiter_Add (Z.of_nat (length records)) pw)) as Hf.
  simpl in Hf. fold kept in Hf.
  destruct Hf as (He & Ht & Hw & _).
  assert (Hkept : forall r, r ∈ kept <-> Some r ∈ records /\ (highestOffset pw <= Offset r)%Z).
  { intros r. unfold kept. rewrite list_elem_of_omap. split.
    - intros ([r'|] & Hin & Hfr); simpl in Hfr; [|discriminate].
      destruct (highestOffset pw <=? Offset r')%Z eqn:Hle; [|discriminate].
      injection Hfr as <-. split; [done|]. by apply Z.leb_le.
    - intros [Hin Hle]. exists (Some r). split; [done|]. simpl.
      apply Z.leb_le in Hle. by rewrite Hle. }
  rewrite He, Ht, Hw, !length_fmap. simpl.
  split_and!.
  - reflexivity.
  - reflexivity.
  - unfold registered at 1. by rewrite omap_app, registered_add.
  - unfold handler_calls at 1. by rewrite omap_app, handler_calls_add, app_nil_r.
  - unfold logged_errors at 1. by rewrite omap_app, logged_errors_add, app_nil_r.
  - lia.
  - exact Hkept.
  - intros ec. rewrite drop_app_length. intros Hin.
    apply list_elem_of_fmap in Hin as (r & -> & Hr).
    apply Hkept in Hr as [_ Hle]. exact Hle.
Qed.

(** What [forwardToEventSource] leaves alone: it only appends to the
    trace. *)
Lemma forwardToEventSource_frame delivered ec pw :
  let pw' := forwardToEventSource handler delivered ec pw in
  pending pw' = pending pw /\ processed pw' = processed pw /\
  highestOffset pw' = highestOffset pw /\
  revocationWaiter pw' = revocationWaiter pw /\
  eventInput pw' = eventInput pw /\ partitionInput pw' = partitionInput pw /\
  exists t, trace pw' = trace pw ++ t.
Proof.
  unfold forwardToEventSource. destruct delivered as [p|]; simpl.
  - destruct (handler _ _) as [state [e|]]; simpl.
    + split_and!; try done. rewrite <- app_assoc. by eexists.
    + destruct state; simpl; split_and!; try done;
        rewrite <- ?app_assoc; by eexists.
  - split_and!; try done. exists []. by rewrite app_nil_r.
Qed.

Lemma forwardToEventSource_calls delivered ec pw :
  handler_calls (trace (forwardToEventSource handler delivered ec pw)) =
  handler_calls (trace pw) ++
    match delivered with
    | Some p => [(set_producer (Some p) ec, ec_record ec)]
    | None => []
    end.
Proof.
  unfold forwardToEventSource, handler_calls.
  destruct delivered as [p|]; simpl; [|by rewrite app_nil_r].
  destruct (handler _ _) as [state [e|]]; simpl.
  - by rewrite !omap_snoc, <- app_assoc.
  - destruct state; simpl; rewrite !omap_snoc; simpl;
      by rewrite ?app_nil_r.
Qed.

(** C7: when the read of [ec.producerChan] yields nil, the event is dropped
    without a call of the user's handler (the worker is left as it was, and
    the context is not marked complete); the handler is called, exactly
    once and with the context's record, exactly when a producer handle is
    delivered.  The same holds of [handleEvent], which every record event
    of the worker loop goes through. *)
Theorem nil_producer_skips_handler delivered ec pw :
  (delivered = None -> forwardToEventSource handler delivered ec pw = pw) /\
  handler_calls (trace (forwardToEventSource handler delivered ec pw)) =
    handler_calls (trace pw) ++
      match delivered with
      | Some p => [(set_producer (Some p) ec, ec_record ec)]
      | None => []
      end /\
  handler_calls (trace (handleEvent handler delivered ec pw)) =
    handler_calls (trace pw) ++
      match delivered with
      | Some p => [(set_producer (Some p) ec, ec_record ec)]
      | None => []
      end /\
  (handler_calls (trace (handleEvent handler delivered ec pw))
     <> handler_calls (trace pw) <-> delivered <> None).
Proof.
  assert (Hhe : handler_calls (trace (handleEvent handler delivered ec pw)) =
                handler_calls (trace pw) ++
                  match delivered with
                  | Some p => [(set_producer (Some p) ec, ec_record ec)]
                  | None => []
                  end).
  { unfold handleEvent. simpl.
    rewrite forwardToEventSource_calls. reflexivity. }
  split_and!.
  - intros ->. reflexivity.
  - apply forwardToEventSource_calls.
  - exact Hhe.
  - rewrite Hhe. destruct delivered as [p|].
    + split; [done|]. intros _ Heq.
      apply (f_equal length) in Heq. rewrite length_app in Heq. simpl in Heq. lia.
    + rewrite app_nil_r. split; [done|]. intros Hne. by destruct Hne.
Qed.

(** The three counter updates of [handleEvent]. *)
Lemma handleEvent_updates delivered ec pw :
  pending (handleEvent handler delivered ec pw) = Int64.add (pending pw) (-1) /\
  highestOffset (handleEvent handler delivered ec pw) =
    Int64.add (EventContext_Offset ec) 1 /\
  processed (handleEvent handler delivered ec pw) = Int64.add (processed pw) 1.
Proof.
  unfold handleEvent.
  pose proof (forwardToEventSource_frame delivered ec
                (set_pending (Int64.add (pending pw) (-1)) pw)) as Hf.
  simpl in Hf. destruct Hf as (Hp & Hq & _).
  simpl. rewrite Hp, Hq. split_and!; reflexivity.
Qed.

(** The same without overflow: on counters and offsets away from the ends
    of [int64] the three updates are the integers' own. *)
Lemma handleEvent_updates_exact delivered ec pw :
  (Int64.min_signed < pending pw <= Int64.max_signed)%Z ->
  (Int64.min_signed <= EventContext_Offset ec < Int64.max_signed)%Z ->
  (Int64.min_signed <= processed pw < Int64.max_signed)%Z ->
  pending (handleEvent handler delivered ec pw) = (pending pw - 1)%Z /\
  highestOffset (handleEvent handler delivered ec pw) =
    (EventContext_Offset ec + 1)%Z /\
  processed (handleEvent handler delivered ec pw) = (processed pw + 1)%Z.
Proof.
  intros Hp Ho Hq.
  destruct (handleEvent_updates delivered ec pw) as (-> & -> & ->).
  unfold Int64.add. rewrite !wrap_in_range; [lia | | |];
    unfold Int64.in_range; lia.
Qed.

(** C9: for every event context taken from [eventInput], whatever the read
    of [ec.producerChan] yields, [handleEvent] takes one off [pending], sets
    [highestOffset] to the context's offset plus one and adds one to
    [processed] (the additions are Go's, on [int64]; away from the ends of
    [int64] they are the integers' own); with a nil producer the user's
    handler is not called and these are the only changes. *)
Theorem handleEvent_counters delivered ec pw :
  let pw' := handleEvent handler delivered ec pw in
  pending pw' = Int64.add (pending pw) (-1) /\
  highestOffset pw' = Int64.add (EventContext_Offset ec) 1 /\
  processed pw' = Int64.add (processed pw) 1 /\
  ((Int64.min_signed < pending pw <= Int64.max_signed)%Z ->
   (Int64.min_signed <= EventContext_Offset ec < Int64.max_signed)%Z ->
   (Int64.min_signed <= processed pw < Int64.max_signed)%Z ->
   pending pw' = (pending pw - 1)%Z /\
   highestOffset pw' = (EventContext_Offset ec + 1)%Z /\
   processed pw' = (processed pw + 1)%Z) /\
  (delivered = None ->
     trace pw' = trace pw /\
     handler_calls (trace pw') = handler_calls (trace pw) /\
     pw' = set_processed (Int64.add (processed pw) 1)
             (set_highestOffset (Int64.add (EventContext_Offset ec) 1)
                (set_pending (Int64.add (pending pw) (-1)) pw))).
Proof.
  intros pw'. subst pw'.
  destruct (handleEvent_updates delivered ec pw) as (Hp & Ho & Hq).
  split; [exact Hp|]. split; [exact Ho|]. split; [exact Hq|]. split.
  - apply handleEvent_updates_exact.
  - intros ->. unfold handleEvent. simpl. done.
Qed.

(** C5, as the code has it: for a job taken from [asyncJobs] the loop calls
    [finalize] once; it marks the job's context complete exactly when the
    returned state is [Complete] and otherwise leaves it alone; the error
    [finalize] returns is dropped, nothing is logged; the counters are
    untouched, the drain reply is offered, and the loop goes on whatever
    the state and the error are. *)
Theorem async_job_iteration ijPtrs job pw :
  let '(pw', c) := work_iteration handler ijPtrs (FromAsyncJobs job) pw in
  c = Continue /\
  trace pw' = trace pw ++ JobFinalize job ::
                (if decide (fst (finalize job tt) = Complete)
                 then [CtxComplete (ctx job)] else []) /\
  completions (trace pw') = completions (trace pw) ++
                (if decide (fst (finalize job tt) = Complete)
                 then [ctx job] else []) /\
  logged_errors (trace pw') = logged_errors (trace pw) /\
  asyncFullReply pw' = true /\
  pending pw' = pending pw /\ processed pw' = processed pw /\
  highestOffset pw' = highestOffset pw.
Proof.
  unfold work_iteration, completions, logged_errors.
  destruct (finalize job tt) as [state err]; simpl.
  destruct state; simpl; rewrite ?omap_snoc, <- ?app_assoc; simpl;
    rewrite ?omap_snoc; simpl; rewrite ?app_nil_r; split_and!; reflexivity.
Qed.

End WorkerFacts.

(** The specification's stale-records scenario: offsets 8, 9, 10, 11 (and a
    nil record) against a [highestOffset] of 10. *)
Example stale_records_scenario :
  let pw := Worker.set_highestOffset 10 Worker.newPartitionWorker in
  let records := [Some (Worker.mkRecord 8 0); Some (Worker.mkRecord 9 0); None;
                  Some (Worker.mkRecord 10 0); Some (Worker.mkRecord 11 0)] in
  let pw' := Worker.scheduleTxnAndExecution records pw in
  Worker.EventContext_Offset <$> Worker.eventInput pw' = [10; 11]%Z /\
  Worker.revocationWaiter pw' = 2%Z.
Proof. split; reflexivity. Qed.

(** C5, as the specification states it, fails: a job whose [finalize] returns
    an error goes through the loop without a log entry. *)
Lemma finalize_error_not_logged :
  snd (Worker.finalize Observe.failing_job tt) = Some 42 /\
  Observe.logged_errors
    (Worker.trace
       (fst (Worker.work_iteration Observe.completing_handler []
               (Worker.FromAsyncJobs Observe.failing_job)
               Worker.newPartitionWorker))) = [].
Proof. split; reflexivity. Qed.


(** ** The asynchronous batcher *)

Section BatcherFacts.

Import Batcher.

Context {K : Type} `{Countable K} {V : Type}.

Implicit Types (ab : AsyncBatcher K V) (item : BatchItem K V)
  (b : asyncBatch K V) (l : list (asyncBatch K V)).

(** *** The scan for a Ready slot *)

Lemma first_ready_Some l i :
  first_ready l = Some i <->
  (exists b, l !! i = Some b /\ state b = batcherReady) /\
  (forall j b', (j < i)%nat -> l !! j = Some b' -> state b' = batcherExecuting).
Proof.
  revert i. induction l as [|b0 l IH]; intros i; simpl.
  - split; [done|]. intros [(b & Hb & _) _]. done.
  - destruct (state b0) eqn:Hs.
    + split.
      * intros [= <-]. split; [by exists b0|]. intros j b' Hj. lia.
      * intros [(b & Hb & Hr) Hbefore]. destruct i as [|i]; [done|].
        specialize (Hbefore 0%nat b0 ltac:(lia) eq_refl). congruence.
    + split.
      * intros Hf. destruct (first_ready l) as [i'|] eqn:Hl; [|done].
        simpl in Hf. injection Hf as <-.
        destruct (proj1 (IH i') eq_refl) as [Hex Hbefore]. split; [exact Hex|].
        intros [|j] b' Hj Hlook; simpl in Hlook.
        -- by injection Hlook as <-.
        -- apply (Hbefore j); [lia|done].
      * intros [(b & Hb & Hr) Hbefore]. destruct i as [|i].
        -- simpl in Hb. injection Hb as <-. congruence.
        -- simpl in Hb.
           assert (Hl : first_ready l = Some i).
           { apply IH. split; [by exists b|].
             intros j b' Hj Hlook. apply (Hbefore (S j)); [lia|done]. }
           by rewrite Hl.
Qed.

Lemma first_ready_None l :
  first_ready l = None <->
  (forall i b, l !! i = Some b -> state b = batcherExecuting).
Proof.
  induction l as [|b0 l IH]; simpl.
  - split; [|done]. intros _ i b Hb. done.
  - destruct (state b0) eqn:Hs.
    + split; [done|]. intros Hall.
      specialize (Hall 0%nat b0 eq_refl). congruence.
    + split.
      * intros Hf. destruct (first_ready l) eqn:Hl; [done|].
        intros [|i] b Hb; simpl in Hb.
        -- by injection Hb as <-.
        -- by apply (proj1 IH eq_refl i).
      * intros Hall.
        assert (Hl : first_ready l = None).
        { apply IH. intros i b Hb. by apply (Hall (S i)). }
        by rewrite Hl.
Qed.

(** C4: the admission of one item.  A key assigned to a Ready slot targets
    that slot; a key assigned to an Executing slot sends the item to the
    back of the pending queue and changes nothing else; an unassigned key
    targets the first Ready slot in index order, and goes to the back of
    the pending queue when no slot is Ready.  Targeting slot [i] is
    [addToBatch] on slot [i]. *)
Theorem add_admission_order item ab :
  (forall i b, assignments ab !! Key item = Some i -> batches ab !! i = Some b ->
     state b = batcherReady ->
     batchFor item ab = Some i /\ add item ab = addToBatch item i ab) /\
  (forall i b, assignments ab !! Key item = Some i -> batches ab !! i = Some b ->
     state b = batcherExecuting ->
     batchFor item ab = None /\
     add item ab = set_pendingItems (pendingItems ab ++ [item]) ab) /\
  (forall i b, assignments ab !! Key item = None -> batches ab !! i = Some b ->
     state b = batcherReady ->
     (forall j b', (j < i)%nat -> batches ab !! j = Some b' ->
                   state b' = batcherExecuting) ->
     batchFor item ab = Some i /\ add item ab = addToBatch item i ab) /\
  (assignments ab !! Key item = None ->
     (forall i b, batches ab !! i = Some b -> state b = batcherExecuting) ->
     batchFor item ab = None /\
     add item ab = set_pendingItems (pendingItems ab ++ [item]) ab).
Proof.
  unfold add, batchFor. split_and!.
  - intros i b -> -> ->. done.
  - intros i b -> -> ->. done.
  - intros i b -> Hb Hr Hbefore.
    assert (Hf : first_ready (batches ab) = Some i).
    { apply first_ready_Some. split; [by exists b|done]. }
    by rewrite Hf.
  - intros -> Hall.
    assert (Hf : first_ready (batches ab) = None) by by apply first_ready_None.
    by rewrite Hf.
Qed.

(** *** What each operation does to the slots' items and to the
    assignments *)

Lemma items_at_insert l i b' j :
  items_at (<[i := b']> l) j =
    if decide (j = i) then (if decide (i < length l)%nat then items b' else [])
    else items_at l j.
Proof.
  unfold items_at. destruct (decide (j = i)) as [->|Hne].
  - destruct (decide (i < length l)%nat) as [Hlt|Hge].
    + by rewrite list_lookup_insert_eq.
    + rewrite list_insert_ge by lia.
      by rewrite (lookup_ge_None_2 l i) by lia.
  - by rewrite list_lookup_insert_ne.
Qed.

Lemma items_at_alter (f : asyncBatch K V -> asyncBatch K V) l i j :
  items_at (alter f i l) j =
    if decide (j = i) then match l !! i with Some b => items (f b) | None => [] end
    else items_at l j.
Proof.
  unfold items_at. destruct (decide (j = i)) as [->|Hne].
  - rewrite list_lookup_alter_eq. by destruct (l !! i).
  - by rewrite list_lookup_alter_ne.
Qed.

Lemma conditionallyExecuteBatch_shape i ab :
  assignments (conditionallyExecuteBatch i ab) = assignments ab /\
  pendingItems (conditionallyExecuteBatch i ab) = pendingItems ab /\
  MaxBatchSize (conditionallyExecuteBatch i ab) = MaxBatchSize ab /\
  length (batches (conditionallyExecuteBatch i ab)) = length (batches ab) /\
  (forall j, items_at (batches (conditionallyExecuteBatch i ab)) j =
             items_at (batches ab) j).
Proof.
  unfold conditionallyExecuteBatch.
  destruct (batches ab !! i) as [b|] eqn:Hb; [|done].
  destruct (state b); [|done]. simpl.
  split_and!; try done.
  - by rewrite length_insert.
  - intros j. rewrite items_at_insert.
    destruct (decide (j = i)) as [->|]; [|done].
    apply lookup_lt_Some in Hb as Hlt.
    destruct (decide _); [|lia]. unfold items_at. by rewrite Hb.
Qed.

Lemma addToBatch_shape item i ab :
  assignments (addToBatch item i ab) = <[Key item := i]> (assignments ab) /\
  pendingItems (addToBatch item i ab) = pendingItems ab /\
  MaxBatchSize (addToBatch item i ab) = MaxBatchSize ab /\
  length (batches (addToBatch item i ab)) = length (batches ab) /\
  (forall j, items_at (batches (addToBatch item i ab)) j =
     if decide (j = i)
     then match batches ab !! i with Some b => items b ++ [item] | None => [] end
     else items_at (batches ab) j).
Proof.
  unfold addToBatch. cbv zeta.
  set (ab1 := set_batches (alter (asyncBatch_add item) i (batches ab))
                (set_assignments (<[Key item := i]> (assignments ab)) ab)).
  assert (Hab1 : forall j, items_at (batches ab1) j =
     if decide (j = i)
     then match batches ab !! i with Some b => items b ++ [item] | None => [] end
     else items_at (batches ab) j).
  { intros j. unfold ab1. simpl. rewrite items_at_alter.
    destruct (decide (j = i)); [|done]. by destruct (batches ab !! i). }
  assert (Hlen : length (batches ab1) = length (batches ab)).
  { unfold ab1. simpl. by rewrite length_alter. }
  destruct (batches ab1 !! i) as [b|] eqn:Hb; [|done].
  destruct (_ =? _)%Z.
  - destruct (conditionallyExecuteBatch_shape i ab1) as (-> & -> & -> & -> & Hit).
    split_and!; try done. intros j. by rewrite Hit.
  - destruct (flushTimer b); [done|]. simpl.
    split_and!; try done.
    + by rewrite length_alter.
    + intros j. rewrite <- Hab1. rewrite items_at_alter.
      destruct (decide (j = i)) as [->|]; [|done].
      unfold items_at. change (alter (asyncBatch_add item) i (batches ab)) with (batches ab1). by rewrite Hb.
Qed.

Lemma batchFor_Some item ab i :
  batchFor item ab = Some i ->
  (exists b, batches ab !! i = Some b /\ state b = batcherReady) /\
  (assignments ab !! Key item = Some i \/ assignments ab !! Key item = None).
Proof.
  unfold batchFor. destruct (assignments ab !! Key item) as [i'|] eqn:Hk.
  - destruct (batches ab !! i') as [b|] eqn:Hb; [|done].
    destruct (state b) eqn:Hs; [|done].
    intros [= <-]. split; [by exists b|by left].
  - intros Hf. apply first_ready_Some in Hf as [Hex _]. split; [done|by right].
Qed.

(** *** The agreement of assignments and slots is an invariant *)

Lemma agree_ext ab ab' :
  batches ab' = batches ab -> assignments ab' = assignments ab ->
  agree ab -> agree ab'.
Proof. unfold agree. intros -> ->. done. Qed.

Lemma agree_conditionallyExecuteBatch i ab :
  agree ab -> agree (conditionallyExecuteBatch i ab).
Proof.
  intros Hag k j.
  destruct (conditionallyExecuteBatch_shape i ab) as (-> & _ & _ & _ & ->).
  apply Hag.
Qed.

Lemma agree_addToBatch item i ab :
  agree ab -> batchFor item ab = Some i -> agree (addToBatch item i ab).
Proof.
  intros Hag Hfor k j.
  destruct (batchFor_Some _ _ _ Hfor) as [(b & Hb & _) Hassigned].
  destruct (addToBatch_shape item i ab) as (-> & _ & _ & _ & ->).
  rewrite Hb.
  assert (Hi : items_at (batches ab) i = items b).
  { unfold items_at. by rewrite Hb. }
  destruct (decide (k = Key item)) as [->|Hk].
  - rewrite lookup_insert_eq. destruct (decide (j = i)) as [->|Hji].
    + split; [|done]. intros _. rewrite fmap_app.
      apply elem_of_app. right. by apply list_elem_of_singleton.
    + split; [congruence|]. intros Hin. apply (Hag (Key item) j) in Hin.
      destruct Hassigned; congruence.
  - rewrite lookup_insert_ne by done. rewrite (Hag k j).
    destruct (decide (j = i)) as [->|Hji]; [|done].
    rewrite Hi, fmap_app, elem_of_app. simpl.
    rewrite list_elem_of_singleton. tauto.
Qed.

Lemma agree_add item ab : agree ab -> agree (add item ab).
Proof.
  intros Hag. unfold add. destruct (batchFor item ab) as [i|] eqn:Hfor.
  - by apply agree_addToBatch.
  - by apply (agree_ext ab).
Qed.

Lemma reset_assignments_lookup (its : list (BatchItem K V)) (m : gmap K nat) k :
  reset_assignments its m !! k =
    if decide (k ∈ Key <$> its) then None else m !! k.
Proof.
  unfold reset_assignments. revert m.
  induction its as [|it its IH]; intros m; cbn [foldl].
  - rewrite decide_False; [done|]. rewrite fmap_nil. apply not_elem_of_nil.
  - rewrite IH, fmap_cons.
    destruct (decide (k ∈ Key <$> its)) as [Hin|Hnin].
    + rewrite decide_True; [done|]. apply elem_of_cons. by right.
    + destruct (decide (k = Key it)) as [->|Hne].
      * rewrite lookup_delete_eq. rewrite decide_True; [done|].
        apply elem_of_cons. by left.
      * rewrite lookup_delete_ne by done. rewrite decide_False; [done|].
        intros [?|?]%elem_of_cons; done.
Qed.

Lemma agree_reset i b ab :
  agree ab -> batches ab !! i = Some b ->
  agree (set_batches (<[i := fst (reset b (assignments ab))]> (batches ab))
           (set_assignments (snd (reset b (assignments ab))) ab)).
Proof.
  intros Hag Hb k j. simpl.
  rewrite reset_assignments_lookup, items_at_insert.
  assert (Hi : items_at (batches ab) i = items b).
  { unfold items_at. by rewrite Hb. }
  destruct (decide (j = i)) as [->|Hji].
  - replace (Key <$> (if decide (i < length (batches ab))%nat
                      then items (fst (reset b (assignments ab))) else []))
      with (@nil K) by by destruct (decide _).
    rewrite elem_of_nil.
    destruct (decide (k ∈ Key <$> items b)) as [Hin|Hnin]; [done|].
    rewrite (Hag k i), Hi. tauto.
  - destruct (decide (k ∈ Key <$> items b)) as [Hin|Hnin].
    + split; [done|]. intros Hj. apply (Hag k j) in Hj.
      rewrite <- Hi in Hin. apply (Hag k i) in Hin. congruence.
    + apply Hag.
Qed.

Lemma agree_flush_from (els : list (BatchItem K V)) ab :
  agree ab -> agree (fst (flush_from els ab)).
Proof.
  revert ab. induction els as [|el rest IH]; intros ab Hag; simpl; [done|].
  destruct (batchFor el ab) as [i|] eqn:Hfor.
  - pose proof (agree_addToBatch el i ab Hag Hfor) as Hag'.
    destruct (_ =? _)%Z; simpl; [done|]. by apply IH.
  - specialize (IH ab Hag). by destruct (flush_from rest ab).
Qed.

Lemma agree_flushPendingItems ab : agree ab -> agree (flushPendingItems ab).
Proof.
  intros Hag. unfold flushPendingItems.
  pose proof (agree_flush_from (pendingItems ab) ab Hag) as Hf.
  destruct (flush_from (pendingItems ab) ab) as [ab' remaining].
  by apply (agree_ext ab').
Qed.

Lemma agree_executeBatch_locked i ab :
  agree ab -> agree (executeBatch_locked i ab).
Proof.
  intros Hag. unfold executeBatch_locked.
  destruct (batches ab !! i) as [b|] eqn:Hb; [|done].
  apply agree_flushPendingItems.
  pose proof (agree_reset i b ab Hag Hb) as Hr.
  revert Hr. apply agree_ext; reflexivity.
Qed.

Lemma agree_critical o ab : agree ab -> agree (critical o ab).
Proof.
  intros Hag. destruct o as [item|i|i]; simpl.
  - by apply agree_add.
  - by apply agree_conditionallyExecuteBatch.
  - destruct (is_executing i ab); [|done]. by apply agree_executeBatch_locked.
Qed.

Lemma agree_criticals ops ab : agree ab -> agree (criticals ops ab).
Proof.
  unfold criticals. revert ab.
  induction ops as [|o ops IH]; intros ab Hag; simpl; [done|].
  apply IH. by apply agree_critical.
Qed.

Lemma agree_NewAsyncBatcher maxBatchSize maxConcurrentBatches delay ab :
  NewAsyncBatcher maxBatchSize maxConcurrentBatches delay = Some ab -> agree ab.
Proof.
  unfold NewAsyncBatcher.
  destruct (maxConcurrentBatches <? 0)%Z; [done|].
  destruct (_ && _); [done|].
  intros [= <-] k i. simpl. rewrite lookup_empty. unfold items_at.
  split; [done|].
  destruct (replicate _ _ !! i) as [b|] eqn:Hb.
  - apply lookup_replicate in Hb as [-> _].
    intros Hin. simpl in Hin. by apply elem_of_nil in Hin.
  - intros Hin. simpl in Hin. by apply elem_of_nil in Hin.
Qed.

Lemma agree_key_discipline ab : agree ab -> key_discipline ab.
Proof.
  intros Hag.
  assert (Hat : forall i b, batches ab !! i = Some b ->
                            items_at (batches ab) i = items b).
  { intros i b Hb. unfold items_at. by rewrite Hb. }
  assert (Hown : forall i b k, batches ab !! i = Some b ->
            k ∈ Key <$> items b -> assignments ab !! k = Some i).
  { intros i b k Hb Hin. apply (Hag k i). by rewrite (Hat i b). }
  split.
  - intros i j bi bj k Hi Hj Hki Hkj.
    pose proof (Hown i bi k Hi Hki). pose proof (Hown j bj k Hj Hkj). congruence.
  - intros k [i Hi]. exists i. split.
    + split; [done|]. apply (Hag k i) in Hi as Hin.
      unfold items_at in Hin. destruct (batches ab !! i) as [b|] eqn:Hb.
      * by exists b.
      * rewrite fmap_nil in Hin. by apply elem_of_nil in Hin.
    + intros i' [Hi' _]. congruence.
  - intros i b k Hb. simpl. apply reset_assignments_lookup.
  - exact Hown.
  - intros i j b k Hb Hj Hne. simpl. rewrite reset_assignments_lookup.
    rewrite decide_False; [done|]. intros Hin.
    pose proof (Hown i b k Hb Hin). congruence.
Qed.

(** C2: in every state the batcher reaches from [NewAsyncBatcher] through
    its critical sections ([add] of an item, a flush timer's callback, the
    end of a slot's execution with its reset and the flush of the pending
    queue), no key is held by two slots; every assigned key has exactly one
    slot that is its assignment and holds an item with that key; and the
    reset of a slot removes from [assignments] the keys of the slot's own
    items, all of them assigned to this slot, and leaves every key assigned
    to another slot in place. *)
Theorem assignments_one_slot_per_key maxBatchSize maxConcurrentBatches delay
    (ab0 : AsyncBatcher K V) (ops : list (op K V)) :
  NewAsyncBatcher maxBatchSize maxConcurrentBatches delay = Some ab0 ->
  key_discipline (criticals ops ab0).
Proof.
  intros Hnew. apply agree_key_discipline, agree_criticals.
  by apply (agree_NewAsyncBatcher maxBatchSize maxConcurrentBatches delay).
Qed.

(** *** Where the items of the slots come from *)

Section Provenance.

Variable P : BatchItem K V -> Prop.

Lemma slots_ok_conditionallyExecuteBatch i ab :
  slots_ok P (batches ab) -> slots_ok P (batches (conditionallyExecuteBatch i ab)).
Proof.
  intros Hok j x.
  destruct (conditionallyExecuteBatch_shape i ab) as (_ & _ & _ & _ & ->).
  apply Hok.
Qed.

Lemma slots_ok_addToBatch item i ab :
  slots_ok P (batches ab) -> P item -> slots_ok P (batches (addToBatch item i ab)).
Proof.
  intros Hok HP j x.
  destruct (addToBatch_shape item i ab) as (_ & _ & _ & _ & ->).
  destruct (decide (j = i)) as [->|]; [|apply Hok].
  destruct (batches ab !! i) as [b|] eqn:Hb; [|by intros ?%elem_of_nil].
  intros [Hin| ->%list_elem_of_singleton]%elem_of_app; [|done].
  apply (Hok i). unfold items_at. by rewrite Hb.
Qed.

Lemma add_provenance item ab :
  slots_ok P (batches ab) -> Forall P (pendingItems ab) -> P item ->
  slots_ok P (batches (add item ab)) /\ Forall P (pendingItems (add item ab)).
Proof.
  intros Hok Hpend HP. unfold add. destruct (batchFor item ab) as [i|].
  - split; [by apply slots_ok_addToBatch|].
    by destruct (addToBatch_shape item i ab) as (_ & -> & _).
  - simpl. split; [done|]. apply Forall_app. split; [done|]. by constructor.
Qed.

Lemma flush_from_provenance (els : list (BatchItem K V)) ab :
  slots_ok P (batches ab) -> Forall P els ->
  slots_ok P (batches (fst (flush_from els ab))) /\
  Forall P (snd (flush_from els ab)).
Proof.
  revert ab. induction els as [|el rest IH]; intros ab Hok Hels; simpl; [done|].
  apply Forall_cons in Hels as [Hel Hrest].
  destruct (batchFor el ab) as [i|].
  - pose proof (slots_ok_addToBatch el i ab Hok Hel) as Hok'.
    destruct (_ =? _)%Z; simpl.
    + split; [done|]. by constructor.
    + by apply IH.
  - specialize (IH ab Hok Hrest). destruct (flush_from rest ab) as [ab' r].
    simpl in *. destruct IH. split; [done|]. by constructor.
Qed.

Lemma executeBatch_locked_provenance i ab :
  slots_ok P (batches ab) -> Forall P (pendingItems ab) ->
  slots_ok P (batches (executeBatch_locked i ab)) /\
  Forall P (pendingItems (executeBatch_locked i ab)).
Proof.
  intros Hok Hpend. unfold executeBatch_locked.
  destruct (batches ab !! i) as [b|] eqn:Hb; [|done].
  unfold flushPendingItems. cbn [reset fst snd].
  set (ab2 := set_batches _ _).
  assert (Hok2 : slots_ok P (batches ab2)).
  { intros j x. unfold ab2. simpl. rewrite items_at_insert.
    destruct (decide (j = i)); [|apply Hok].
    destruct (decide _); simpl; by intros ?%elem_of_nil. }
  pose proof (flush_from_provenance (pendingItems ab2) ab2 Hok2 Hpend) as Hf.
  destruct (flush_from (pendingItems ab2) ab2) as [ab' remaining].
  simpl in *. exact Hf.
Qed.

End Provenance.

(** *** A batch none of whose items is in the batcher *)

Section Untouched.

Variables (p : ptr) (b : Batch K V).

Lemma completeItem_at_untouched q s :
  q <> p -> untouched p b s ->
  untouched p b (completeItem_at q s) /\
  batcher (completeItem_at q s) = batcher s.
Proof.
  intros Hq (Hok & Hpend & Hcalls & Hfired & Hstore). unfold completeItem_at.
  destruct (panicked s); [done|].
  destruct (store s !! q) as [bq|] eqn:Hbq; [|done].
  destruct (completeItem bq) as [bq' fired]. split; [|done].
  unfold untouched. simpl. split_and!; try done.
  - intros [Hin| Hin%list_elem_of_singleton]%elem_of_app; [done|]. congruence.
  - intros t [Hin|Hin]%elem_of_app; [by apply (Hfired t)|].
    apply list_elem_of_fmap in Hin as (t' & Heq & _). congruence.
  - by rewrite lookup_insert_ne.
Qed.

Lemma completion_loop_untouched (its : list (BatchItem K V)) s :
  Forall (foreign p) its -> untouched p b s ->
  untouched p b (foldl (fun s item => completeItem_at (batchOf item) s) s its) /\
  batcher (foldl (fun s item => completeItem_at (batchOf item) s) s its) = batcher s.
Proof.
  revert s. induction its as [|it its IH]; intros s Hits Hs; simpl; [done|].
  apply Forall_cons in Hits as [Hit Hits].
  destruct (completeItem_at_untouched (batchOf it) s Hit Hs) as [Hs' Hb'].
  destruct (IH _ Hits Hs') as [Hs'' Hb'']. split; [done|]. congruence.
Qed.

Lemma step_untouched e s :
  match e with EvAdd item => foreign p item | _ => True end ->
  untouched p b s -> untouched p b (step e s).
Proof.
  intros He Hs. unfold step. destruct (panicked s); [done|].
  destruct Hs as (Hok & Hpend & Hcalls & Hfired & Hstore).
  destruct e as [item|i|i].
  - destruct (add_provenance (foreign p) item (batcher s) Hok Hpend He).
    unfold untouched. simpl. by split_and!.
  - unfold untouched. simpl.
    destruct (conditionallyExecuteBatch_shape i (batcher s)) as (_ & -> & _).
    split_and!; try done. by apply slots_ok_conditionallyExecuteBatch.
  - unfold executeBatch.
    destruct (batches (batcher s) !! i) as [bi|] eqn:Hbi; [|done].
    destruct (state bi); [done|].
    set (s1 := mkSystem _ _ _ _ _ _).
    assert (Hs1 : untouched p b s1) by done.
    assert (Hits : Forall (foreign p) (items bi)).
    { apply Forall_forall. intros x Hx. apply (Hok i).
      unfold items_at. by rewrite Hbi. }
    destruct (completion_loop_untouched (items bi) s1 Hits Hs1) as [Hs2 Hb2].
    set (s2 := foldl _ s1 (items bi)) in *.
    destruct (panicked s2); [done|].
    destruct Hs2 as (Hok2 & Hpend2 & Hcalls2 & Hfired2 & Hstore2).
    destruct (executeBatch_locked_provenance (foreign p) i _ Hok2 Hpend2).
    unfold untouched. simpl. by split_and!.
Qed.

Lemma run_untouched evs s :
  Forall (fun e => match e with EvAdd item => foreign p item | _ => True end) evs ->
  untouched p b s -> untouched p b (run evs s).
Proof.
  unfold run. revert s.
  induction evs as [|e evs IH]; intros s Hevs Hs; simpl; [done|].
  apply Forall_cons in Hevs as [He Hevs]. apply IH; [done|].
  by apply step_untouched.
Qed.

End Untouched.

(** C10: for a batch of the store whose [Items] is empty, [Add] admits
    nothing (it leaves the batcher as it is); and in every run of a new
    batcher, with whatever items of batches of the store are submitted,
    timers fire and slots execute, [completeItem] is never called for that
    batch, its terminal action (callback or default completion) never
    fires, and the batch stays as it was. *)
Theorem empty_batch_never_completes (h : gmap ptr (Batch K V)) (p : ptr)
    (b : Batch K V) maxBatchSize maxConcurrentBatches delay
    (s0 : system K V) (evs : list (event K V)) :
  h !! p = Some b -> Items b = [] ->
  boot h maxBatchSize maxConcurrentBatches delay = Some s0 ->
  Forall (submitted_from h) evs ->
  (forall ab : AsyncBatcher K V, Add b ab = ab) /\
  (p ∉ completeItemCalls (run evs s0)) /\
  (forall t, (p, t) ∉ terminalActions (run evs s0)) /\
  store (run evs s0) !! p = Some b.
Proof.
  intros Hp Hempty Hboot Hevs. split.
  { intros ab. unfold Add. by rewrite Hempty. }
  assert (Hs0 : untouched p b s0).
  { unfold boot in Hboot.
    destruct (NewAsyncBatcher _ _ _) as [ab0|] eqn:Hnew; [|done].
    simpl in Hboot. injection Hboot as <-.
    unfold NewAsyncBatcher in Hnew.
    destruct (maxConcurrentBatches <? 0)%Z; [done|].
    destruct (_ && _); [done|]. injection Hnew as <-.
    unfold untouched. simpl. split_and!; try done.
    - intros j x. unfold items_at.
      destruct (replicate _ _ !! j) as [bj|] eqn:Hbj; [|by intros ?%elem_of_nil].
      apply lookup_replicate in Hbj as [-> _]. by intros ?%elem_of_nil.
    - apply not_elem_of_nil.
    - intros t. apply not_elem_of_nil. }
  assert (Hforeign : Forall (fun e => match e with
                                      | EvAdd item => batch item <> p
                                      | _ => True end) evs).
  { eapply Forall_impl; [exact Hevs|]. intros [item|i|i]; simpl; try done.
    intros (bq & Hbq & Hin) Heq. rewrite Heq, Hp in Hbq. injection Hbq as <-.
    rewrite Hempty in Hin. by apply elem_of_nil in Hin. }
  destruct (run_untouched p b evs s0 Hforeign Hs0) as (_ & _ & Hc & Hf & Hst).
  done.
Qed.

End BatcherFacts.

(** ** The batcher on concrete runs *)

Section BatcherRuns.

Import Batcher Examples.

(** C1 does not hold of the code.  One slot of size one; the batch of
    [item_a] and [item_b] is submitted.  [item_a] fills the slot, which is
    dispatched, and [item_b] waits in the pending queue.  When the slot
    finishes, [flushPendingItems] puts [item_b] on the slot, the slot is
    dispatched, all slots are busy and the loop returns before it unlinks
    the element: [item_b] is on the slot and still in the queue.  The next
    flush admits it again, so the executor receives it a second time (and
    [completeItem] is called three times for a batch of two items), with
    [item_b] still queued. *)
Theorem flushPendingItems_readmits_item :
  exists s0, boot store_ab 1 1 0 = Some s0 /\
    let s1 := run [EvAdd item_a; EvAdd item_b; EvExecute 0] s0 in
    let s3 := run [EvExecute 0; EvExecute 0] s1 in
    (items <$> batches (batcher s1)) = [[item_b]] /\
    pendingItems (batcher s1) = [item_b] /\
    executorCalls s1 = [[item_a]] /\
    executorCalls s3 = [[item_a]; [item_b]; [item_b]] /\
    completeItemCalls s3 = [0; 0; 0]%nat /\
    pendingItems (batcher s3) = [item_b].
Proof.
  eexists. split; [reflexivity|]. vm_compute. repeat split; reflexivity.
Qed.

(** The key discipline after a run of a batcher of two slots. *)
Lemma assignments_one_slot_per_key_witness :
  NewAsyncBatcher 2 2 0 = Some two_slots /\
  key_discipline (criticals busy_ops two_slots).
Proof.
  split; [reflexivity|].
  apply (assignments_one_slot_per_key 2 2 0 two_slots busy_ops). reflexivity.
Defined.

(** A batch of two items: nothing fires at the first call, the default
    completion has fired once after five. *)
Lemma completeItem_terminal_once_witness :
  completed batch_ab = 0%Z /\
  (0 < length (Items batch_ab))%nat /\
  (Z.of_nat (length (Items batch_ab)) <= Int64.max_signed)%Z /\
  (Z.of_nat 5 < 2 ^ 64)%Z /\
  snd (completeItem_times 1 batch_ab) = [] /\
  snd (completeItem_times 5 batch_ab) = [AsyncJobComplete 7 (Complete, None)].
Proof.
  assert (H0 : completed batch_ab = 0%Z) by reflexivity.
  assert (H1 : (0 < length (Items batch_ab))%nat) by (simpl; lia).
  assert (H2 : (Z.of_nat (length (Items batch_ab)) <= Int64.max_signed)%Z)
    by (vm_compute; discriminate).
  assert (H3 : (Z.of_nat 5 < 2 ^ 64)%Z) by reflexivity.
  assert (H4 : (Z.of_nat 1 < 2 ^ 64)%Z) by reflexivity.
  split; [exact H0|]. split; [exact H1|]. split; [exact H2|].
  split; [exact H3|]. split.
  - exact (proj1 (completeItem_terminal_once batch_ab 1 H0 H1 H2 H4)).
  - exact (proj1 (completeItem_terminal_once batch_ab 5 H0 H1 H2 H3)).
Defined.


(** The empty batch at address 0 beside a batch whose items run. *)
Lemma empty_batch_never_completes_witness :
  store_empty_and_cd !! 0%nat = Some batch_empty /\
  Items batch_empty = [] /\
  exists s0, boot store_empty_and_cd 2 1 0 = Some s0 /\
    let evs := [EvAdd item_c; EvAdd item_d; EvExecute 0] in
    Forall (submitted_from store_empty_and_cd) evs /\
    (0%nat ∉ completeItemCalls (run evs s0)) /\
    store (run evs s0) !! 0%nat = Some batch_empty.
Proof.
  assert (H0 : store_empty_and_cd !! 0%nat = Some batch_empty) by reflexivity.
  assert (H1 : Items batch_empty = []) by reflexivity.
  split; [exact H0|]. split; [exact H1|].
  eexists. split; [reflexivity|]. cbv zeta.
  assert (H3 : Forall (submitted_from store_empty_and_cd)
                 [EvAdd item_c; EvAdd item_d; EvExecute 0]).
  { repeat constructor.
    - eexists. split; [reflexivity|]. apply elem_of_cons. by left.
    - eexists. split; [reflexivity|]. apply elem_of_cons. right.
      apply elem_of_cons. by left. }
  split; [exact H3|].
  destruct (empty_batch_never_completes store_empty_and_cd 0 batch_empty
              2 1 0 _ _ H0 H1 eq_refl H3) as (_ & Hc & _ & Hs).
  split; [exact Hc | exact Hs].
Defined.

End BatcherRuns.

(** ** Invariants of the batcher's slots *)

Section SlotFacts.

Import Batcher Slots.

Context {K : Type} `{Countable K} {V : Type}.

Implicit Types (ab : AsyncBatcher K V) (item : BatchItem K V)
  (b : asyncBatch K V) (l : list (asyncBatch K V)).

Lemma insert_as_alter (f : asyncBatch K V -> asyncBatch K V) l i b :
  l !! i = Some b -> <[i := f b]> l = alter f i l.
Proof.
  intros Hb. apply list_eq. intros j.
  destruct (decide (j = i)) as [->|Hne].
  - rewrite list_lookup_insert_eq by (by eapply lookup_lt_Some).
    by rewrite list_lookup_alter_eq, Hb.
  - by rewrite list_lookup_insert_ne, list_lookup_alter_ne.
Qed.

Lemma alter_missing (f : asyncBatch K V -> asyncBatch K V) l i :
  l !! i = None -> alter f i l = l.
Proof.
  intros Hb. apply list_eq. intros j.
  destruct (decide (j = i)) as [->|Hne].
  - by rewrite list_lookup_alter_eq, Hb.
  - by rewrite list_lookup_alter_ne.
Qed.

Lemma alter_twice (f g : asyncBatch K V -> asyncBatch K V) l i :
  alter g i (alter f i l) = alter (fun b => g (f b)) i l.
Proof.
  apply list_eq. intros j. destruct (decide (j = i)) as [->|Hne].
  - rewrite !list_lookup_alter_eq. by destruct (l !! i).
  - by rewrite !list_lookup_alter_ne.
Qed.

(** The two operations on slots, as updates of one position. *)
Lemma conditionallyExecuteBatch_alter i ab :
  batches (conditionallyExecuteBatch i ab) = alter dispatch i (batches ab).
Proof.
  unfold conditionallyExecuteBatch.
  destruct (batches ab !! i) as [b|] eqn:Hb.
  - rewrite <- (insert_as_alter dispatch _ _ b Hb). unfold dispatch.
    destruct (state b) eqn:Hs; simpl; [done|].
    symmetry. apply list_eq. intros j. destruct (decide (j = i)) as [->|Hne].
    + rewrite list_lookup_insert_eq by (by eapply lookup_lt_Some). done.
    + by rewrite list_lookup_insert_ne.
  - by rewrite alter_missing.
Qed.

Lemma conditionallyExecuteBatch_count i ab b :
  batches ab !! i = Some b ->
  executingCount (conditionallyExecuteBatch i ab) =
    match state b with
    | batcherReady => Int64.add (executingCount ab) 1
    | batcherExecuting => executingCount ab
    end.
Proof.
  intros Hb. unfold conditionallyExecuteBatch. rewrite Hb. by destruct (state b).
Qed.

Lemma addToBatch_alter item i ab :
  batches (addToBatch item i ab) =
    alter (take_item (MaxBatchSize ab) item) i (batches ab).
Proof.
  unfold addToBatch. cbv zeta.
  set (ab1 := set_batches _ _).
  assert (H1 : batches ab1 = alter (asyncBatch_add item) i (batches ab)) by done.
  assert (HM : MaxBatchSize ab1 = MaxBatchSize ab) by done.
  destruct (batches ab !! i) as [b|] eqn:Hb.
  - assert (Hb1 : batches ab1 !! i = Some (asyncBatch_add item b)).
    { by rewrite H1, list_lookup_alter_eq, Hb. }
    rewrite Hb1, HM.
    rewrite <- (insert_as_alter (take_item (MaxBatchSize ab) item) _ _ b Hb).
    unfold take_item. cbv zeta.
    destruct (_ =? _)%Z.
    + rewrite conditionallyExecuteBatch_alter, H1, alter_twice.
      by rewrite <- (insert_as_alter _ _ _ b Hb).
    + destruct (flushTimer (asyncBatch_add item b)).
      * rewrite H1. by rewrite <- (insert_as_alter _ _ _ b Hb).
      * simpl. rewrite alter_twice.
        by rewrite <- (insert_as_alter _ _ _ b Hb).
  - assert (Hb1 : batches ab1 !! i = None).
    { by rewrite H1, list_lookup_alter_eq, Hb. }
    rewrite Hb1, H1. by rewrite !alter_missing.
Qed.

Lemma addToBatch_count item i ab b :
  batches ab !! i = Some b ->
  executingCount (addToBatch item i ab) =
    if (Z.of_nat (length (items b ++ [item])) =? MaxBatchSize ab)%Z
    then match state b with
         | batcherReady => Int64.add (executingCount ab) 1
         | batcherExecuting => executingCount ab
         end
    else executingCount ab.
Proof.
  intros Hb. unfold addToBatch. cbv zeta.
  set (ab1 := set_batches _ _).
  assert (Hb1 : batches ab1 !! i = Some (asyncBatch_add item b)).
  { unfold ab1. simpl. by rewrite list_lookup_alter_eq, Hb. }
  rewrite Hb1. simpl.
  destruct (_ =? _)%Z.
  - by rewrite (conditionallyExecuteBatch_count i ab1 _ Hb1).
  - by destruct (flushTimer b).
Qed.

(** *** Counting the Executing slots *)

Lemma executing_slots_alter (f : asyncBatch K V -> asyncBatch K V) l i b :
  l !! i = Some b ->
  (executing_slots (alter f i l) + weight b = executing_slots l + weight (f b))%nat.
Proof.
  revert i. induction l as [|b0 l IH]; intros [|i] Hb; try done.
  - injection Hb as ->. simpl. lia.
  - specialize (IH i Hb). simpl. unfold alter in *. lia.
Qed.

Lemma executing_slots_le l : (executing_slots l <= length l)%nat.
Proof.
  induction l as [|b0 l IH]; simpl; [lia|].
  unfold weight. destruct (state b0); lia.
Qed.

Lemma executing_slots_replicate n :
  executing_slots (replicate n (@empty_slot K V)) = 0%nat.
Proof. induction n as [|n IH]; simpl; [done|]. exact IH. Qed.

(** *** The slot invariant under the two slot operations *)

Lemma slot_inv_dispatch M b : slot_inv M b -> slot_inv M (dispatch b).
Proof.
  intros (Hex & Hre & Hsz). unfold dispatch.
  destruct (state b) eqn:Hs.
  - split; [done|]. split; [done|]. intros HM.
    destruct (Hsz HM) as [_ Hle]. split; [done|]. exact Hle.
  - unfold slot_inv. rewrite Hs. by split_and!.
Qed.

Lemma slot_inv_take_item M item b :
  slot_inv M b -> state b = batcherReady -> slot_inv M (take_item M item b).
Proof.
  intros (Hex & Hre & Hsz) Hs. unfold take_item. cbv zeta.
  assert (Hlen : length (items (asyncBatch_add item b)) = S (length (items b))).
  { simpl. rewrite length_app. simpl. lia. }
  assert (Hne : items (asyncBatch_add item b) <> []).
  { simpl. intros Heq. apply (f_equal length) in Heq.
    rewrite length_app in Heq. simpl in Heq. lia. }
  destruct (_ =? _)%Z eqn:Heqb.
  - apply Z.eqb_eq in Heqb. unfold dispatch. simpl in *. rewrite Hs.
    repeat split; simpl; try done; lia.
  - apply Z.eqb_neq in Heqb.
    assert (Hsize : (1 <= M)%Z ->
              (Z.of_nat (length (items (asyncBatch_add item b))) < M)%Z).
    { intros HM. specialize (Hsz HM) as [Hlt _]. specialize (Hlt Hs).
      rewrite Hlen in *. lia. }
    destruct (flushTimer (asyncBatch_add item b)) eqn:Ht.
    + split; [simpl; congruence|]. split.
      * intros _. by split.
      * intros HM. specialize (Hsize HM). split; [done|lia].
    + split; [simpl; congruence|]. split.
      * intros _. by split.
      * intros HM. specialize (Hsize HM). simpl in *. split; [done|lia].
Qed.

Lemma weight_dispatch b : weight (dispatch b) = 1%nat.
Proof. unfold weight, dispatch. by destruct (state b) eqn:Hs; simpl; rewrite ?Hs. Qed.

Lemma weight_take_item M item b :
  state b = batcherReady ->
  weight (take_item M item b) =
    if (Z.of_nat (length (items b ++ [item])) =? M)%Z then 1%nat else 0%nat.
Proof.
  intros Hs. unfold take_item. cbv zeta. simpl.
  destruct (_ =? _)%Z; [apply weight_dispatch|].
  unfold weight. destruct (flushTimer b); simpl; by rewrite Hs.
Qed.

(** *** The batcher invariant is kept by every critical section *)

Lemma batcher_inv_conditionallyExecuteBatch i ab :
  batcher_inv ab -> batcher_inv (conditionallyExecuteBatch i ab).
Proof.
  intros (Hslots & Hcount & Hlen). unfold batcher_inv.
  destruct (conditionallyExecuteBatch_shape i ab) as (_ & _ & -> & -> & _).
  rewrite conditionallyExecuteBatch_alter. split_and!; [|  |done].
  - apply Forall_alter; [done|]. intros b _. apply slot_inv_dispatch.
  - destruct (batches ab !! i) as [b|] eqn:Hb.
    + rewrite (conditionallyExecuteBatch_count i ab b Hb).
      pose proof (executing_slots_alter dispatch _ _ _ Hb) as Halt.
      pose proof (executing_slots_le (alter dispatch i (batches ab))) as Hle.
      rewrite length_alter in Hle.
      rewrite weight_dispatch in Halt.
      destruct (state b) eqn:Hs.
      * assert (Hwb : weight b = 0%nat) by (unfold weight; by rewrite Hs).
        rewrite Hwb in Halt. unfold Int64.add. rewrite wrap_in_range.
        -- lia.
        -- unfold Int64.in_range, Int64.min_signed, Int64.max_signed in *. lia.
      * assert (Hwb : weight b = 1%nat) by (unfold weight; by rewrite Hs).
        rewrite Hwb in Halt. lia.
    + rewrite alter_missing by done.
      unfold conditionallyExecuteBatch. by rewrite Hb.
Qed.

Lemma batcher_inv_addToBatch item i ab b :
  batcher_inv ab -> batches ab !! i = Some b -> state b = batcherReady ->
  batcher_inv (addToBatch item i ab).
Proof.
  intros (Hslots & Hcount & Hlen) Hb Hs. unfold batcher_inv.
  destruct (addToBatch_shape item i ab) as (_ & _ & -> & -> & _).
  rewrite addToBatch_alter. split_and!; [| |done].
  - apply Forall_alter; [done|]. intros b' Hb' Hinv.
    apply slot_inv_take_item; [done|]. congruence.
  - rewrite (addToBatch_count item i ab b Hb), Hs.
    pose proof (executing_slots_alter (take_item (MaxBatchSize ab) item) _ _ _ Hb) as Halt.
    pose proof (executing_slots_le
                  (alter (take_item (MaxBatchSize ab) item) i (batches ab))) as Hle.
    rewrite length_alter in Hle.
    rewrite (weight_take_item _ item b Hs) in Halt.
    assert (Hwb : weight b = 0%nat) by (unfold weight; by rewrite Hs).
    rewrite Hwb in Halt.
    destruct (_ =? _)%Z.
    + unfold Int64.add. rewrite wrap_in_range.
      * lia.
      * unfold Int64.in_range, Int64.min_signed, Int64.max_signed in *. lia.
    + lia.
Qed.

Lemma batchFor_Ready item ab i :
  batchFor item ab = Some i ->
  exists b, batches ab !! i = Some b /\ state b = batcherReady.
Proof. intros Hfor. by destruct (batchFor_Some item ab i Hfor) as [Hex _]. Qed.

Lemma batcher_inv_add item ab : batcher_inv ab -> batcher_inv (add item ab).
Proof.
  intros Hinv. unfold add. destruct (batchFor item ab) as [i|] eqn:Hfor; [|done].
  destruct (batchFor_Ready item ab i Hfor) as (b & Hb & Hs).
  by apply (batcher_inv_addToBatch item i ab b).
Qed.

Lemma batcher_inv_flush_from (els : list (BatchItem K V)) ab :
  batcher_inv ab -> batcher_inv (fst (flush_from els ab)).
Proof.
  revert ab. induction els as [|el rest IH]; intros ab Hinv; simpl; [done|].
  destruct (batchFor el ab) as [i|] eqn:Hfor.
  - destruct (batchFor_Ready el ab i Hfor) as (b & Hb & Hs).
    pose proof (batcher_inv_addToBatch el i ab b Hinv Hb Hs) as Hinv'.
    destruct (_ =? _)%Z; simpl; [done|]. by apply IH.
  - specialize (IH ab Hinv). by destruct (flush_from rest ab).
Qed.

Lemma batcher_inv_flushPendingItems ab :
  batcher_inv ab -> batcher_inv (flushPendingItems ab).
Proof.
  intros Hinv. unfold flushPendingItems.
  pose proof (batcher_inv_flush_from (pendingItems ab) ab Hinv) as Hf.
  by destruct (flush_from (pendingItems ab) ab) as [ab' remaining].
Qed.

Lemma batcher_inv_executeBatch_locked i ab :
  batcher_inv ab -> is_executing i ab = true ->
  batcher_inv (executeBatch_locked i ab).
Proof.
  intros (Hslots & Hcount & Hlen) Hexec.
  unfold is_executing in Hexec. unfold executeBatch_locked.
  destruct (batches ab !! i) as [b|] eqn:Hb; [|done].
  destruct (state b) eqn:Hs; [done|]. cbn [reset fst snd].
  apply batcher_inv_flushPendingItems. unfold batcher_inv. simpl.
  pose proof (Forall_lookup_1 _ _ _ _ Hslots Hb) as (Hex & _ & _).
  set (b' := {| items := []; state := batcherReady; flushTimer := flushTimer b |}).
  replace (<[i := b']> (batches ab)) with (alter (fun _ => b') i (batches ab))
    by (symmetry; apply list_insert_alter).
  split_and!.
  - apply Forall_alter; [done|]. intros b0 _ _. unfold b'.
    rewrite (Hex Hs). repeat split; simpl; try done; lia.
  - pose proof (executing_slots_alter (fun _ => b') _ _ _ Hb) as Halt.
    unfold weight in Halt. rewrite Hs in Halt. simpl in Halt.
    pose proof (executing_slots_le (batches ab)) as Hle.
    unfold Int64.add. rewrite wrap_in_range.
    + lia.
    + unfold Int64.in_range, Int64.min_signed, Int64.max_signed in *. lia.
  - by rewrite length_alter.
Qed.

Lemma batcher_inv_critical o ab : batcher_inv ab -> batcher_inv (critical o ab).
Proof.
  intros Hinv. destruct o as [item|i|i]; simpl.
  - by apply batcher_inv_add.
  - by apply batcher_inv_conditionallyExecuteBatch.
  - destruct (is_executing i ab) eqn:He; [|done].
    by apply batcher_inv_executeBatch_locked.
Qed.

Lemma batcher_inv_criticals ops ab :
  batcher_inv ab -> batcher_inv (criticals ops ab).
Proof.
  unfold criticals. revert ab.
  induction ops as [|o ops IH]; intros ab Hinv; simpl; [done|].
  apply IH. by apply batcher_inv_critical.
Qed.

Lemma NewAsyncBatcher_fields maxBatchSize maxConcurrentBatches delay ab :
  NewAsyncBatcher maxBatchSize maxConcurrentBatches delay = Some ab ->
  batches ab = replicate (Z.to_nat maxConcurrentBatches) empty_slot /\
  assignments ab = ∅ /\ pendingItems ab = [] /\ executingCount ab = 0%Z /\
  MaxBatchSize ab = maxBatchSize /\ (0 <= maxConcurrentBatches)%Z.
Proof.
  unfold NewAsyncBatcher.
  destruct (maxConcurrentBatches <? 0)%Z eqn:E; [done|].
  destruct (_ && _); [done|]. intros [= <-]. simpl. split_and!; try done. lia.
Qed.

Lemma batcher_inv_NewAsyncBatcher maxBatchSize maxConcurrentBatches delay ab :
  NewAsyncBatcher maxBatchSize maxConcurrentBatches delay = Some ab ->
  (maxConcurrentBatches <= Int64.max_signed)%Z ->
  batcher_inv ab.
Proof.
  intros Hnew Hmax.
  destruct (NewAsyncBatcher_fields _ _ _ _ Hnew) as (Hb & _ & _ & Hc & HM & H0).
  unfold batcher_inv. rewrite Hb, Hc, executing_slots_replicate, length_replicate.
  split_and!; [|done|lia].
  apply Forall_replicate. repeat split; simpl; try done; lia.
Qed.

(** *** What no critical section changes *)

Lemma flush_from_frame (els : list (BatchItem K V)) ab :
  MaxBatchSize (fst (flush_from els ab)) = MaxBatchSize ab /\
  length (batches (fst (flush_from els ab))) = length (batches ab).
Proof.
  revert ab. induction els as [|el rest IH]; intros ab; simpl; [done|].
  destruct (batchFor el ab) as [i|].
  - destruct (addToBatch_shape el i ab) as (_ & _ & HM & Hlen & _).
    destruct (_ =? _)%Z; simpl; [done|].
    destruct (IH (addToBatch el i ab)) as [-> ->]. done.
  - specialize (IH ab). by destruct (flush_from rest ab).
Qed.

Lemma critical_frame o ab :
  MaxBatchSize (critical o ab) = MaxBatchSize ab /\
  length (batches (critical o ab)) = length (batches ab).
Proof.
  destruct o as [item|i|i]; simpl.
  - unfold add. destruct (batchFor item ab) as [j|]; [|done].
    by destruct (addToBatch_shape item j ab) as (_ & _ & -> & -> & _).
  - by destruct (conditionallyExecuteBatch_shape i ab) as (_ & _ & -> & -> & _).
  - destruct (is_executing i ab); [|done]. unfold executeBatch_locked.
    destruct (batches ab !! i) as [b|]; [|done]. cbn [reset fst snd].
    unfold flushPendingItems.
    set (ab2 := set_batches _ _).
    pose proof (flush_from_frame (pendingItems ab2) ab2) as Hf.
    destruct (flush_from (pendingItems ab2) ab2) as [ab' remaining].
    simpl in *. destruct Hf as [-> ->]. unfold ab2. simpl.
    by rewrite length_insert.
Qed.

Lemma criticals_frame ops ab :
  MaxBatchSize (criticals ops ab) = MaxBatchSize ab /\
  length (batches (criticals ops ab)) = length (batches ab).
Proof.
  unfold criticals. revert ab.
  induction ops as [|o ops IH]; intros ab; simpl; [done|].
  destruct (IH (critical o ab)) as [-> ->]. apply critical_frame.
Qed.

(** X1: in every state the batcher reaches, [executingCount] is the number
    of slots in state Executing; so it lies between zero and the number of
    slots, which stays the [maxConcurrentBatches] the batcher was made
    with. *)
Theorem executingCount_counts_executing maxBatchSize maxConcurrentBatches delay
    (ab0 : AsyncBatcher K V) (ops : list (op K V)) :
  NewAsyncBatcher maxBatchSize maxConcurrentBatches delay = Some ab0 ->
  (maxConcurrentBatches <= Int64.max_signed)%Z ->
  executingCount (criticals ops ab0) =
    Z.of_nat (executing_slots (batches (criticals ops ab0))) /\
  (0 <= executingCount (criticals ops ab0)
     <= Z.of_nat (length (batches (criticals ops ab0))))%Z /\
  Z.of_nat (length (batches (criticals ops ab0))) = maxConcurrentBatches.
Proof.
  intros Hnew Hmax.
  pose proof (batcher_inv_NewAsyncBatcher _ _ _ _ Hnew Hmax) as Hinv0.
  destruct (batcher_inv_criticals ops ab0 Hinv0) as (_ & Hcount & _).
  pose proof (executing_slots_le (batches (criticals ops ab0))) as Hle.
  destruct (criticals_frame ops ab0) as [_ Hlen].
  destruct (NewAsyncBatcher_fields _ _ _ _ Hnew) as (Hb & _ & _ & _ & _ & H0).
  split; [exact Hcount|]. split; [lia|].
  rewrite Hlen, Hb, length_replicate. lia.
Qed.

(** X2: in every state the batcher reaches, an Executing slot has no flush
    timer, and a Ready slot has its flush timer armed exactly when it holds
    items: no item sits on a slot that is neither being executed nor due to
    be flushed. *)
Theorem flush_timer_discipline maxBatchSize maxConcurrentBatches delay
    (ab0 : AsyncBatcher K V) (ops : list (op K V)) :
  NewAsyncBatcher maxBatchSize maxConcurrentBatches delay = Some ab0 ->
  (maxConcurrentBatches <= Int64.max_signed)%Z ->
  forall i b, batches (criticals ops ab0) !! i = Some b ->
    (state b = batcherExecuting -> flushTimer b = false) /\
    (state b = batcherReady -> (flushTimer b = true <-> items b <> [])) /\
    (items b <> [] -> state b = batcherExecuting \/ flushTimer b = true).
Proof.
  intros Hnew Hmax i b Hb.
  pose proof (batcher_inv_NewAsyncBatcher _ _ _ _ Hnew Hmax) as Hinv0.
  destruct (batcher_inv_criticals ops ab0 Hinv0) as (Hslots & _ & _).
  destruct (Forall_lookup_1 _ _ _ _ Hslots Hb) as (Hex & Hre & _).
  split; [exact Hex|]. split; [exact Hre|].
  intros Hne. destruct (state b) eqn:Hs; [right|by left].
  by apply Hre.
Qed.

(** X4: with a [maxBatchSize] of at least one, no slot ever holds more than
    [maxBatchSize] items, and a Ready slot holds fewer: a slot that reaches
    the size is dispatched by the [add] that filled it. *)
Theorem slot_size_bound maxBatchSize maxConcurrentBatches delay
    (ab0 : AsyncBatcher K V) (ops : list (op K V)) :
  NewAsyncBatcher maxBatchSize maxConcurrentBatches delay = Some ab0 ->
  (maxConcurrentBatches <= Int64.max_signed)%Z ->
  (1 <= maxBatchSize)%Z ->
  forall i b, batches (criticals ops ab0) !! i = Some b ->
    (Z.of_nat (length (items b)) <= maxBatchSize)%Z /\
    (state b = batcherReady -> (Z.of_nat (length (items b)) < maxBatchSize)%Z).
Proof.
  intros Hnew Hmax Hsize i b Hb.
  pose proof (batcher_inv_NewAsyncBatcher _ _ _ _ Hnew Hmax) as Hinv0.
  destruct (batcher_inv_criticals ops ab0 Hinv0) as (Hslots & _ & _).
  destruct (criticals_frame ops ab0) as [HM _].
  destruct (NewAsyncBatcher_fields _ _ _ _ Hnew) as (_ & _ & _ & _ & HM0 & _).
  rewrite HM, HM0 in Hslots.
  destruct (Forall_lookup_1 _ _ _ _ Hslots Hb) as (_ & _ & Hsz).
  destruct (Hsz Hsize) as [Hlt Hle]. by split.
Qed.

(** *** Executing slots are left alone *)

Lemma addToBatch_lookup_ne item i j ab :
  i <> j -> batches (addToBatch item i ab) !! j = batches ab !! j.
Proof. intros Hne. by rewrite addToBatch_alter, list_lookup_alter_ne. Qed.

Lemma flush_from_executing (els : list (BatchItem K V)) ab i b :
  batches ab !! i = Some b -> state b = batcherExecuting ->
  batches (fst (flush_from els ab)) !! i = Some b.
Proof.
  revert ab. induction els as [|el rest IH]; intros ab Hb Hs; simpl; [done|].
  destruct (batchFor el ab) as [j|] eqn:Hfor.
  - destruct (batchFor_Ready el ab j Hfor) as (bj & Hbj & Hsj).
    assert (Hne : j <> i) by (intros ->; congruence).
    assert (Hb' : batches (addToBatch el j ab) !! i = Some b).
    { by rewrite addToBatch_lookup_ne. }
    destruct (_ =? _)%Z; simpl; [done|]. by apply IH.
  - specialize (IH ab Hb Hs). by destruct (flush_from rest ab).
Qed.

(** X3: a slot in state Executing is not touched by any critical section
    but the end of its own execution: an [add], a timer callback and the
    end of another slot's execution, with its flush of the pending queue,
    leave the slot, and so the items its executor is reading, as they
    are. *)
Theorem executing_slot_stable (o : op K V) ab i b :
  batches ab !! i = Some b -> state b = batcherExecuting ->
  o <> OpFinish i ->
  batches (critical o ab) !! i = Some b.
Proof.
  intros Hb Hs Ho. destruct o as [item|j|j]; simpl.
  - unfold add. destruct (batchFor item ab) as [j|] eqn:Hfor; [|done].
    destruct (batchFor_Ready item ab j Hfor) as (bj & Hbj & Hsj).
    rewrite addToBatch_lookup_ne; [done|]. intros ->. congruence.
  - rewrite conditionallyExecuteBatch_alter.
    destruct (decide (j = i)) as [->|Hne].
    + rewrite list_lookup_alter_eq, Hb. simpl. unfold dispatch. by rewrite Hs.
    + by rewrite list_lookup_alter_ne.
  - destruct (is_executing j ab); [|done].
    assert (Hne : j <> i) by congruence.
    unfold executeBatch_locked.
    destruct (batches ab !! j) as [bj|] eqn:Hbj; [|done].
    cbn [reset fst snd]. unfold flushPendingItems.
    set (ab2 := set_batches _ _).
    assert (Hb2 : batches ab2 !! i = Some b).
    { unfold ab2. simpl. by rewrite list_lookup_insert_ne. }
    pose proof (flush_from_executing (pendingItems ab2) ab2 i b Hb2 Hs) as Hf.
    by destruct (flush_from (pendingItems ab2) ab2) as [ab' remaining].
Qed.

(** *** The pending queue keeps its order *)



(** *** What a flush does to the items the batcher holds *)

Lemma items_dispatch b : items (dispatch b) = items b.
Proof. unfold dispatch. by destruct (state b). Qed.

Lemma items_take_item M item b : items (take_item M item b) = items b ++ [item].
Proof.
  unfold take_item. cbv zeta. destruct (_ =? _)%Z; [by rewrite items_dispatch|].
  by destruct (flushTimer _).
Qed.

Lemma concat_items_alter (f : asyncBatch K V -> asyncBatch K V) l i b x :
  l !! i = Some b -> items (f b) = items b ++ [x] ->
  concat (items <$> alter f i l) ≡ₚ x :: concat (items <$> l).
Proof.
  revert i. induction l as [|b0 l IH]; intros [|i] Hb Hf; try done.
  - injection Hb as ->. simpl. rewrite Hf.
    rewrite <- app_assoc. simpl. by rewrite <- Permutation_middle.
  - simpl in Hb. specialize (IH i Hb Hf).
    change (alter f (S i) (b0 :: l)) with (b0 :: alter f i l).
    rewrite !fmap_cons. simpl. rewrite IH. by rewrite <- Permutation_middle.
Qed.

Lemma addToBatch_perm item i ab b :
  batches ab !! i = Some b ->
  concat (items <$> batches (addToBatch item i ab)) ≡ₚ
    item :: concat (items <$> batches ab).
Proof.
  intros Hb. rewrite addToBatch_alter.
  apply (concat_items_alter _ _ _ b); [done|]. apply items_take_item.
Qed.

Lemma flush_from_perm (els : list (BatchItem K V)) ab :
  let ab' := fst (flush_from els ab) in
  let remaining := snd (flush_from els ab) in
  concat (items <$> batches ab') ++ remaining ≡ₚ
    concat (items <$> batches ab) ++ els \/
  (executingCount ab' = Z.of_nat (length (batches ab')) /\
   exists x, x ∈ els /\
     concat (items <$> batches ab') ++ remaining ≡ₚ
       x :: (concat (items <$> batches ab) ++ els)).
Proof.
  revert ab. induction els as [|el rest IH]; intros ab; simpl; [by left|].
  destruct (batchFor el ab) as [i|] eqn:Hfor.
  - destruct (batchFor_Ready el ab i Hfor) as (b & Hb & _).
    pose proof (addToBatch_perm el i ab b Hb) as Hperm.
    destruct (_ =? _)%Z eqn:Hsat; simpl.
    + right. apply Z.eqb_eq in Hsat. split; [done|].
      exists el. split; [by apply elem_of_cons; left|].
      by rewrite Hperm.
    + specialize (IH (addToBatch el i ab)). simpl in IH.
      destruct IH as [IH|(Hc & x & Hx & IH)].
      * left. rewrite IH, Hperm. simpl. by rewrite <- Permutation_middle.
      * right. split; [done|]. exists x. split; [by apply elem_of_cons; right|].
        rewrite IH, Hperm. simpl. by rewrite <- Permutation_middle.
  - specialize (IH ab). destruct (flush_from rest ab) as [ab' r]. simpl in *.
    destruct IH as [IH|(Hc & x & Hx & IH)].
    + left. rewrite <- !Permutation_middle. by rewrite IH.
    + right. split; [done|]. exists x. split; [by apply elem_of_cons; right|].
      rewrite <- !Permutation_middle. rewrite IH. apply perm_swap.
Qed.

(** X7: [flushPendingItems] loses no item.  Either the batcher holds, on its
    slots and in its queue together, the same items as before, each as often
    as before; or the flush stopped because every slot is Executing, and
    then one item of the queue is held once more than before: it is on a
    slot and still in the queue. *)
Theorem flushPendingItems_conserves ab :
  all_items (flushPendingItems ab) ≡ₚ all_items ab \/
  (executingCount (flushPendingItems ab) =
     Z.of_nat (length (batches (flushPendingItems ab))) /\
   exists x, x ∈ pendingItems ab /\
     all_items (flushPendingItems ab) ≡ₚ x :: all_items ab).
Proof.
  unfold all_items, flushPendingItems.
  pose proof (flush_from_perm (pendingItems ab) ab) as Hf. simpl in Hf.
  destruct (flush_from (pendingItems ab) ab) as [ab' remaining]. simpl in *.
  exact Hf.
Qed.

End SlotFacts.

(** ** The batcher, its executor and the submitted items *)

Section SystemFacts.

Import Batcher Slots.

Context {K : Type} `{Countable K} {V : Type}.

Implicit Types (ab : AsyncBatcher K V) (item x : BatchItem K V)
  (b : asyncBatch K V) (l : list (asyncBatch K V)) (s : system K V).

(** *** Every operation in terms of the items held *)

Lemma add_perm item ab : all_items (add item ab) ≡ₚ item :: all_items ab.
Proof.
  unfold all_items, add. destruct (batchFor item ab) as [i|] eqn:Hfor.
  - destruct (batchFor_Ready item ab i Hfor) as (b & Hb & _).
    rewrite (addToBatch_perm item i ab b Hb).
    by destruct (addToBatch_shape item i ab) as (_ & -> & _).
  - simpl. rewrite app_assoc. by rewrite <- Permutation_cons_append.
Qed.

Lemma items_fmap_alter (f : asyncBatch K V -> asyncBatch K V) l i :
  (forall b, items (f b) = items b) ->
  items <$> alter f i l = items <$> l.
Proof.
  intros Hf. apply list_eq. intros j. rewrite !list_lookup_fmap.
  destruct (decide (j = i)) as [->|Hne].
  - rewrite list_lookup_alter_eq. destruct (l !! i); simpl; [|done].
    by rewrite Hf.
  - by rewrite list_lookup_alter_ne.
Qed.

Lemma conditionallyExecuteBatch_all_items i ab :
  all_items (conditionallyExecuteBatch i ab) = all_items ab.
Proof.
  unfold all_items. rewrite conditionallyExecuteBatch_alter.
  rewrite items_fmap_alter by apply items_dispatch.
  by destruct (conditionallyExecuteBatch_shape i ab) as (_ & -> & _).
Qed.

Lemma concat_items_reset l i b b' :
  l !! i = Some b -> items b' = [] ->
  concat (items <$> l) ≡ₚ items b ++ concat (items <$> <[i := b']> l).
Proof.
  revert i. induction l as [|b0 l IH]; intros [|i] Hb Hnil; try done.
  - injection Hb as ->. simpl. by rewrite Hnil.
  - simpl in Hb. specialize (IH i Hb Hnil). simpl.
    change (list_fmap _ _ items ?a) with (items <$> a).
    rewrite IH. rewrite !app_assoc. f_equiv. apply Permutation_app_comm.
Qed.

Lemma flushPendingItems_keeps x ab :
  x ∈ all_items ab -> x ∈ all_items (flushPendingItems ab).
Proof.
  intros Hx. unfold all_items, flushPendingItems in *.
  pose proof (flush_from_perm (pendingItems ab) ab) as Hf. simpl in Hf.
  destruct (flush_from (pendingItems ab) ab) as [ab' remaining]. simpl in *.
  destruct Hf as [Hf|(_ & y & _ & Hf)]; rewrite Hf; [done|].
  apply elem_of_cons. by right.
Qed.

Lemma executeBatch_locked_keeps x i ab b :
  batches ab !! i = Some b ->
  x ∈ all_items ab ->
  x ∈ items b \/ x ∈ all_items (executeBatch_locked i ab).
Proof.
  intros Hb Hx. unfold executeBatch_locked. rewrite Hb. cbn [reset fst snd].
  set (b' := {| items := []; state := batcherReady; flushTimer := flushTimer b |}).
  unfold all_items in Hx.
  rewrite (concat_items_reset _ i b b' Hb eq_refl) in Hx.
  rewrite <- app_assoc in Hx. apply elem_of_app in Hx as [Hx|Hx]; [by left|].
  right. by apply flushPendingItems_keeps.
Qed.

(** *** The traces of a step *)

Lemma completion_loop_frame (its : list (BatchItem K V)) s :
  batcher (foldl (fun s item => completeItem_at (batchOf item) s) s its) = batcher s /\
  executorCalls (foldl (fun s item => completeItem_at (batchOf item) s) s its) =
    executorCalls s.
Proof.
  revert s. induction its as [|it its IH]; intros s; simpl; [done|].
  destruct (IH (completeItem_at (batchOf it) s)) as [-> ->].
  unfold completeItem_at. destruct (panicked s); [done|].
  destruct (store s !! batchOf it) as [bq|]; [|done].
  by destruct (completeItem bq).
Qed.

(** [executeBatch] on a slot that is Executing: the executor is called with
    the slot's items; the batcher is the one after the critical section, or
    unchanged when the completion loop panicked. *)
Lemma executeBatch_effect i s b :
  batches (batcher s) !! i = Some b -> state b = batcherExecuting ->
  executorCalls (executeBatch i s) = executorCalls s ++ [items b] /\
  (batcher (executeBatch i s) = executeBatch_locked i (batcher s) \/
   (batcher (executeBatch i s) = batcher s /\ panicked (executeBatch i s) = true)).
Proof.
  intros Hb Hs. unfold executeBatch. rewrite Hb, Hs.
  set (s1 := mkSystem _ _ _ _ _ _).
  destruct (completion_loop_frame (items b) s1) as [Hbat Hcalls].
  set (s2 := foldl _ s1 (items b)) in *.
  destruct (panicked s2) eqn:Hp.
  - split; [by rewrite Hcalls|]. right. by rewrite Hbat.
  - simpl. split; [by rewrite Hcalls|]. left. by rewrite Hbat.
Qed.

Lemma executeBatch_idle i s :
  (forall b, batches (batcher s) !! i = Some b -> state b = batcherReady) ->
  executeBatch i s = s.
Proof.
  intros Hidle. unfold executeBatch.
  destruct (batches (batcher s) !! i) as [b|] eqn:Hb; [|done].
  by rewrite (Hidle b eq_refl).
Qed.

Lemma panicked_sticky evs s : panicked s = true -> run evs s = s.
Proof.
  intros Hp. unfold run. induction evs as [|e evs IH]; simpl; [done|].
  unfold step at 2. rewrite Hp. exact IH.
Qed.

Lemma run_snoc evs e s : run (evs ++ [e]) s = step e (run evs s).
Proof. unfold run. by rewrite foldl_app. Qed.

(** *** No submitted item is lost *)

Lemma step_held e s x : held s x -> held (step e s) x.
Proof.
  intros Hx. unfold step. destruct (panicked s); [done|].
  destruct e as [item|i|i].
  - destruct Hx as [Hx|Hx]; [by left|]. right. simpl.
    rewrite add_perm. apply elem_of_cons. by right.
  - destruct Hx as [Hx|Hx]; [by left|]. right. simpl.
    by rewrite conditionallyExecuteBatch_all_items.
  - destruct (batches (batcher s) !! i) as [b|] eqn:Hb.
    + destruct (state b) eqn:Hs.
      * rewrite executeBatch_idle; [done|]. intros b' Hb'. congruence.
      * destruct (executeBatch_effect i s b Hb Hs) as [Hcalls Hbat].
        unfold held. rewrite Hcalls, concat_app. simpl. rewrite app_nil_r.
        destruct Hx as [Hx|Hx]; [left; apply elem_of_app; by left|].
        destruct Hbat as [->|[-> _]]; [|by right].
        destruct (executeBatch_locked_keeps x i (batcher s) b Hb Hx) as [Hin|Hin].
        -- left. apply elem_of_app. by right.
        -- by right.
    + rewrite executeBatch_idle; [done|]. intros b' Hb'. congruence.
Qed.

Lemma step_held_new item s :
  panicked s = false -> held (step (EvAdd item) s) item.
Proof.
  intros Hp. unfold step. rewrite Hp. right. simpl.
  rewrite add_perm. apply elem_of_cons. by left.
Qed.

Lemma run_held evs s :
  panicked (run evs s) = false ->
  forall x, x ∈ submitted evs -> held (run evs s) x.
Proof.
  induction evs as [|e evs IH] using rev_ind; intros Hp x Hx.
  - by apply elem_of_nil in Hx.
  - rewrite run_snoc in *.
    assert (Hp' : panicked (run evs s) = false).
    { destruct (panicked (run evs s)) eqn:Hq; [|done].
      unfold step in Hp. rewrite Hq in Hp. congruence. }
    unfold submitted in Hx. rewrite omap_app in Hx.
    apply elem_of_app in Hx as [Hx|Hx].
    + apply step_held. by apply IH.
    + destruct e as [item|i|i]; simpl in Hx; try by apply elem_of_nil in Hx.
      apply list_elem_of_singleton in Hx as ->. by apply step_held_new.
Qed.

(** X5: no submitted item is lost.  In a run that did not panic, every item
    handed to [add] has been passed to the executor or is still with the
    batcher, on a slot or in the pending queue. *)
Theorem submitted_items_are_held (evs : list (event K V)) s :
  panicked (run evs s) = false ->
  forall x, x ∈ submitted evs ->
    x ∈ concat (executorCalls (run evs s)) \/ x ∈ all_items (batcher (run evs s)).
Proof. intros Hp x Hx. by apply (run_held evs s Hp x). Qed.

(** *** Where the executor's items come from *)

Lemma completion_loop_calls (Q : ptr -> Prop) (its : list (BatchItem K V)) s :
  Forall Q (completeItemCalls s) -> Forall (fun it => Q (batchOf it)) its ->
  Forall Q (completeItemCalls
              (foldl (fun s item => completeItem_at (batchOf item) s) s its)).
Proof.
  revert s. induction its as [|it its IH]; intros s Hs Hits; simpl; [done|].
  apply Forall_cons in Hits as [Hit Hits]. apply IH; [|done].
  unfold completeItem_at. destruct (panicked s); [done|].
  destruct (store s !! batchOf it) as [bq|]; [|done].
  destruct (completeItem bq). simpl. apply Forall_app. split; [done|].
  by constructor.
Qed.

Lemma step_prov (P : BatchItem K V -> Prop) e s :
  match e with EvAdd item => P item | _ => True end ->
  sys_prov P s -> sys_prov P (step e s).
Proof.
  intros He (Hok & Hpend & Hcalls & Hcomp). unfold step.
  destruct (panicked s); [done|]. destruct e as [item|i|i].
  - destruct (add_provenance P item (batcher s) Hok Hpend He).
    unfold sys_prov. simpl. by split_and!.
  - unfold sys_prov. simpl.
    destruct (conditionallyExecuteBatch_shape i (batcher s)) as (_ & -> & _).
    split_and!; try done. by apply slots_ok_conditionallyExecuteBatch.
  - unfold executeBatch.
    destruct (batches (batcher s) !! i) as [b|] eqn:Hb; [|done].
    destruct (state b); [done|].
    set (s1 := mkSystem _ _ _ _ _ _).
    assert (Hits : Forall P (items b)).
    { apply Forall_forall. intros x Hx. apply (Hok i).
      unfold items_at. by rewrite Hb. }
    destruct (completion_loop_frame (items b) s1) as [Hbat Hex].
    assert (Hc2 : Forall (fun p => exists x, P x /\ batchOf x = p)
                    (completeItemCalls
                       (foldl (fun s item => completeItem_at (batchOf item) s)
                          s1 (items b)))).
    { apply completion_loop_calls; [done|].
      eapply Forall_impl; [exact Hits|]. intros x Hx. by exists x. }
    set (s2 := foldl _ s1 (items b)) in *.
    assert (Hex2 : Forall (Forall P) (executorCalls s2)).
    { rewrite Hex. unfold s1. simpl. apply Forall_app. split; [done|].
      by constructor. }
    destruct (panicked s2).
    + unfold sys_prov. rewrite Hbat. by split_and!.
    + destruct (executeBatch_locked_provenance P i (batcher s2)) as [Hok' Hpend'].
      { by rewrite Hbat. } { by rewrite Hbat. }
      unfold sys_prov. simpl. by split_and!.
Qed.

Lemma run_prov (P : BatchItem K V -> Prop) evs s :
  Forall (fun e => match e with EvAdd item => P item | _ => True end) evs ->
  sys_prov P s -> sys_prov P (run evs s).
Proof.
  unfold run. revert s.
  induction evs as [|e evs IH]; intros s Hevs Hs; simpl; [done|].
  apply Forall_cons in Hevs as [He Hevs]. apply IH; [done|].
  by apply step_prov.
Qed.

Lemma boot_fields (h : gmap ptr (Batch K V)) maxBatchSize maxConcurrentBatches
    delay s0 :
  boot h maxBatchSize maxConcurrentBatches delay = Some s0 ->
  NewAsyncBatcher maxBatchSize maxConcurrentBatches delay = Some (batcher s0) /\
  store s0 = h /\ executorCalls s0 = [] /\ completeItemCalls s0 = [] /\
  terminalActions s0 = [] /\ panicked s0 = false.
Proof.
  unfold boot.
  destruct (NewAsyncBatcher _ _ _) as [ab0|]; [|done].
  simpl. intros [= <-]. done.
Qed.

Lemma boot_prov (P : BatchItem K V -> Prop) (h : gmap ptr (Batch K V))
    maxBatchSize maxConcurrentBatches delay s0 :
  boot h maxBatchSize maxConcurrentBatches delay = Some s0 -> sys_prov P s0.
Proof.
  intros Hboot.
  destruct (boot_fields _ _ _ _ _ Hboot) as (Hnew & _ & Hex & Hc & _).
  destruct (NewAsyncBatcher_fields _ _ _ _ Hnew) as (Hb & _ & Hp & _).
  unfold sys_prov. rewrite Hb, Hp, Hex, Hc. split_and!; try done.
  intros j x. unfold items_at.
  destruct (replicate _ _ !! j) as [bj|] eqn:Hbj; [|by intros ?%elem_of_nil].
  apply lookup_replicate in Hbj as [-> _]. by intros ?%elem_of_nil.
Qed.

(** X6: the batcher invents nothing.  In every run of a new batcher, each
    item of each call of the executor is an item that was handed to [add],
    and [completeItem] is only ever called on the batch a submitted item
    points back to. *)
Theorem executor_receives_submitted (h : gmap ptr (Batch K V))
    maxBatchSize maxConcurrentBatches delay s0 (evs : list (event K V)) :
  boot h maxBatchSize maxConcurrentBatches delay = Some s0 ->
  (forall call x, call ∈ executorCalls (run evs s0) -> x ∈ call ->
     x ∈ submitted evs) /\
  (forall p, p ∈ completeItemCalls (run evs s0) ->
     exists x, x ∈ submitted evs /\ batch x = p).
Proof.
  intros Hboot.
  pose proof (boot_prov (fun x => x ∈ submitted evs) _ _ _ _ _ Hboot) as H0.
  assert (Hevs : Forall (fun e => match e with
                                  | EvAdd item => item ∈ submitted evs
                                  | _ => True end) evs).
  { apply Forall_forall. intros [item|i|i] He; try done.
    unfold submitted. apply list_elem_of_omap. by exists (EvAdd item). }
  destruct (run_prov _ evs s0 Hevs H0) as (_ & _ & Hcalls & Hcomp).
  split.
  - intros call x Hcall Hx.
    rewrite Forall_forall in Hcalls. specialize (Hcalls call Hcall).
    rewrite Forall_forall in Hcalls. by apply Hcalls.
  - intros p Hp. rewrite Forall_forall in Hcomp. exact (Hcomp p Hp).
Qed.

(** *** The size of the executor's batches *)

Lemma step_sized M e s : sys_sized M s -> (1 <= M)%Z -> sys_sized M (step e s).
Proof.
  intros (Hinv & HM & Hcalls) H1. unfold step. destruct (panicked s); [done|].
  destruct e as [item|i|i].
  - unfold sys_sized. simpl. split_and!; [by apply batcher_inv_add| |done].
    pose proof (critical_frame (OpAdd item) (batcher s)) as [Hf _].
    simpl in Hf. by rewrite Hf.
  - unfold sys_sized. simpl.
    split_and!; [by apply batcher_inv_conditionallyExecuteBatch| |done].
    pose proof (critical_frame (OpTimer i) (batcher s)) as [Hf _].
    simpl in Hf. by rewrite Hf.
  - destruct (batches (batcher s) !! i) as [b|] eqn:Hb.
    + destruct (state b) eqn:Hs.
      * rewrite executeBatch_idle; [done|]. intros b' Hb'. congruence.
      * destruct (executeBatch_effect i s b Hb Hs) as [Hex Hbat].
        destruct Hinv as (Hslots & Hrest).
        destruct (Forall_lookup_1 _ _ _ _ Hslots Hb) as (_ & _ & Hsz).
        rewrite HM in Hsz. destruct (Hsz H1) as [_ Hle].
        assert (Hcalls' : Forall (fun call => (Z.of_nat (length call) <= M)%Z)
                            (executorCalls (executeBatch i s))).
        { rewrite Hex. apply Forall_app. split; [done|]. by constructor. }
        destruct Hbat as [Hbat|[Hbat _]]; unfold sys_sized; rewrite Hbat.
        -- assert (Hexec : is_executing i (batcher s) = true).
           { unfold is_executing. by rewrite Hb, Hs. }
           split_and!; [|  |done].
           ++ by apply batcher_inv_executeBatch_locked.
           ++ pose proof (critical_frame (OpFinish i) (batcher s)) as [Hf _].
              simpl in Hf. rewrite Hexec in Hf. by rewrite Hf.
        -- by split_and!.
    + rewrite executeBatch_idle; [done|]. intros b' Hb'. congruence.
Qed.

Lemma run_sized M evs s : sys_sized M s -> (1 <= M)%Z -> sys_sized M (run evs s).
Proof.
  unfold run. revert s.
  induction evs as [|e evs IH]; intros s Hs H1; simpl; [done|].
  apply IH; [|done]. by apply step_sized.
Qed.

(** X9: with a [maxBatchSize] of at least one, the executor is never called
    with more than [maxBatchSize] items. *)
Theorem executor_batch_size_bound (h : gmap ptr (Batch K V))
    maxBatchSize maxConcurrentBatches delay s0 (evs : list (event K V)) :
  boot h maxBatchSize maxConcurrentBatches delay = Some s0 ->
  (maxConcurrentBatches <= Int64.max_signed)%Z ->
  (1 <= maxBatchSize)%Z ->
  forall call, call ∈ executorCalls (run evs s0) ->
    (Z.of_nat (length call) <= maxBatchSize)%Z.
Proof.
  intros Hboot Hmax H1 call Hcall.
  destruct (boot_fields _ _ _ _ _ Hboot) as (Hnew & _ & Hex & _).
  destruct (NewAsyncBatcher_fields _ _ _ _ Hnew) as (_ & _ & _ & _ & HM & _).
  assert (H0 : sys_sized maxBatchSize s0).
  { unfold sys_sized. rewrite Hex. split_and!; [|done|done].
    by apply (batcher_inv_NewAsyncBatcher maxBatchSize maxConcurrentBatches delay). }
  destruct (run_sized _ evs s0 H0 H1) as (_ & _ & Hcalls).
  rewrite Forall_forall in Hcalls. by apply Hcalls.
Qed.

End SystemFacts.

(** ** Building a batch, and calls past the count *)

Section BatchBuilding.

Import Batcher Scenarios.

Context {K : Type} `{Countable K} {V : Type}.

Implicit Types b : Batch K V.

Lemma completeItem_silent b :
  (0 <= completed b)%Z ->
  (Z.of_nat (length (Items b)) <= completed b)%Z ->
  (completed b < Int64.max_signed)%Z ->
  completeItem b = (set_completed (completed b + 1) b, []).
Proof.
  intros H0 Hn Hmax. unfold completeItem, Int64.add. cbv zeta.
  rewrite wrap_in_range
    by (unfold Int64.in_range, Int64.min_signed, Int64.max_signed in *; lia).
  destruct (_ =? _)%Z eqn:Heq; [|done]. apply Z.eqb_eq in Heq. lia.
Qed.

(** X10: once the counter of a batch stands at or above the number of its
    items, as on a batch with no items or on one that has fired, calls of
    [completeItem] only count: they fire neither the callback nor the
    default completion (as long as the counter does not overflow). *)
Theorem completeItem_after_count_silent b (k : nat) :
  (0 <= completed b)%Z ->
  (Z.of_nat (length (Items b)) <= completed b)%Z ->
  (completed b + Z.of_nat k <= Int64.max_signed)%Z ->
  snd (completeItem_times k b) = [] /\
  completed (fst (completeItem_times k b)) = (completed b + Z.of_nat k)%Z /\
  Items (fst (completeItem_times k b)) = Items b.
Proof.
  revert b. induction k as [|k IH]; intros b H0 Hn Hmax.
  - simpl. split_and!; try done. lia.
  - cbn [completeItem_times].
    rewrite (completeItem_silent b H0 Hn) by lia.
    specialize (IH (set_completed (completed b + 1) b)). simpl in IH.
    destruct IH as (Hf & Hc & Hi); try lia.
    destruct (completeItem_times k _) as [b2 fired2]. simpl in *.
    split_and!; [done| lia | done].
Qed.

Lemma build_from p (ops : list (build_op (K:=K) (V:=V))) b :
  let b' := foldl (build_step p) b ops in
  ((forall x, x ∈ Items b -> batch x = p) ->
   forall x, x ∈ Items b' -> batch x = p) /\
  (fun x => (Key x, Value x)) <$> Items b' =
    ((fun x => (Key x, Value x)) <$> Items b) ++ concat (passed <$> ops) /\
  completed b' = completed b /\ callback b' = callback b /\
  EventContext b' = EventContext b.
Proof.
  revert b. induction ops as [|o ops IH]; intros b; simpl.
  - rewrite app_nil_r. by split_and!.
  - specialize (IH (build_step p b o)). simpl in IH.
    destruct IH as (Hptr & Hkv & Hc & Hcb & Hec).
    rewrite Hkv, Hc, Hcb, Hec. clear Hkv Hc Hcb Hec.
    destruct o as [new|key value]; simpl.
    + split_and!; try done.
      * intros Hb. apply Hptr. intros x [Hx|Hx]%elem_of_app; [by apply Hb|].
        change (map (set_batch p) new) with (set_batch p <$> new) in Hx.
        apply list_elem_of_fmap in Hx as (y & -> & _). done.
      * rewrite fmap_app, <- app_assoc. f_equal. f_equal.
        change (map (set_batch p) new) with (set_batch p <$> new).
        rewrite <- list_fmap_compose. done.
    + split_and!; try done.
      * intros Hb. apply Hptr. intros x [Hx|Hx]%elem_of_app; [by apply Hb|].
        apply list_elem_of_singleton in Hx as ->. done.
      * rewrite fmap_app, <- app_assoc. done.
Qed.

(** X11: a batch made by [NewBatch] and any sequence of [Add] and
    [AddKeyValue] calls holds the keys and values passed to those calls, in
    call order, and every one of its items points back to the batch,
    whatever back pointer the caller's items carried; its counter is zero
    and its callback and event context are those given to [NewBatch]. *)
Theorem build_back_pointers p ec cb (ops : list (build_op (K:=K) (V:=V))) :
  (forall x, x ∈ Items (build p ec cb ops) -> batch x = p) /\
  (fun x => (Key x, Value x)) <$> Items (build p ec cb ops) =
    concat (passed <$> ops) /\
  completed (build p ec cb ops) = 0%Z /\
  callback (build p ec cb ops) = cb /\
  EventContext (build p ec cb ops) = ec.
Proof.
  unfold build.
  destruct (build_from p ops (NewBatch ec cb)) as (Hptr & Hkv & Hc & Hcb & Hec).
  split_and!; try done.
  apply Hptr. intros x Hx. by apply elem_of_nil in Hx.
Qed.

End BatchBuilding.

(** ** More on the partition worker *)

Section WorkerRuns.

Import Worker Observe Scenarios.

Variable handler : EventContext -> option kgoRecord -> ExecutionState * option error.

(** *** The loop ends on the revoked signal only *)

Lemma work_iteration_control ijPtrs m pw :
  snd (work_iteration handler ijPtrs m pw) = Return <-> m = FromRevokedSignal.
Proof.
  destruct m as [ec d|job|ij d| |]; simpl; try (split; [done|discriminate]).
  - destruct (finalize job tt) as [state err]. simpl. split; [done|discriminate].
  - done.
Qed.

(** X12: the loop of [work] returns exactly when the revoked signal is among
    what it receives, whatever the handler, the jobs and the interjections
    return; it then returns at the first revoked signal, sends [stopped]
    and handles nothing that comes after it. *)
Theorem work_loop_returns_on_revoked ijPtrs (ms : list message) pw :
  (snd (work_loop handler ijPtrs ms pw) = Return <-> FromRevokedSignal ∈ ms) /\
  (forall ms1 ms2, ms = ms1 ++ FromRevokedSignal :: ms2 ->
     FromRevokedSignal ∉ ms1 ->
     work_loop handler ijPtrs ms pw =
       (log SendStopped (fst (work_loop handler ijPtrs ms1 pw)), Return)).
Proof.
  split.
  - revert pw. induction ms as [|m ms IH]; intros pw; simpl.
    + split; [done|]. by intros ?%elem_of_nil.
    + pose proof (work_iteration_control ijPtrs m pw) as Hc.
      destruct (work_iteration handler ijPtrs m pw) as [pw' c]. simpl in Hc.
      destruct c.
      * rewrite IH. rewrite elem_of_cons. split; [by right|].
        intros [Heq|Hin]; [|done]. symmetry in Heq.
        apply Hc in Heq. discriminate.
      * split; [|done]. intros _. apply elem_of_cons. left.
        symmetry. by apply Hc.
  - intros ms1 ms2 -> Hnot. revert pw.
    induction ms1 as [|m ms1 IH]; intros pw; simpl; [done|].
    pose proof (work_iteration_control ijPtrs m pw) as Hc.
    destruct (work_iteration handler ijPtrs m pw) as [pw' c]. simpl in Hc.
    destruct c.
    + apply IH. intros Hin. apply Hnot. apply elem_of_cons. by right.
    + exfalso. apply Hnot. apply elem_of_cons. left. symmetry. by apply Hc.
Qed.

(** *** The event path: when a context is completed, when an error is
    logged *)

(** X13: on the event path the context is marked complete exactly when a
    producer was delivered and the handler returned [Complete] without an
    error; an error the handler returns is logged, once, and the context is
    then not completed, even if the returned state is [Complete]. *)
Theorem forwardToEventSource_outcome delivered ec pw :
  let ec' := set_producer delivered ec in
  let result := handler ec' (ec_record ec) in
  completions (trace (forwardToEventSource handler delivered ec pw)) =
    completions (trace pw) ++
      match delivered, result with
      | Some _, (Complete, None) => [ec']
      | _, _ => []
      end /\
  logged_errors (trace (forwardToEventSource handler delivered ec pw)) =
    logged_errors (trace pw) ++
      match delivered, result with
      | Some _, (_, Some e) => [e]
      | _, _ => []
      end.
Proof.
  unfold forwardToEventSource, completions, logged_errors. cbv zeta.
  destruct delivered as [p|]; simpl; [|by rewrite !app_nil_r].
  destruct (handler _ _) as [state [e|]]; destruct state; simpl;
    rewrite !omap_app; simpl; rewrite ?app_nil_r; done.
Qed.

(** *** After revocation *)

(** X14: once the worker is revoked, records handed to [add] are discarded
    without being counted in [pending], and a slice still queued in
    [partitionInput] is taken off the queue and dropped: nothing is
    registered with the producer pool or sent on [eventInput], and the
    revocation waiter and the counters stay as they are. *)
Theorem revoked_worker_forwards_nothing records pw :
  revoked pw = true ->
  add records pw = pw /\
  partitionInput (pushRecords_records pw) = tail (partitionInput pw) /\
  eventInput (pushRecords_records pw) = eventInput pw /\
  trace (pushRecords_records pw) = trace pw /\
  revocationWaiter (pushRecords_records pw) = revocationWaiter pw /\
  pending (pushRecords_records pw) = pending pw /\
  highestOffset (pushRecords_records pw) = highestOffset pw.
Proof.
  intros Hr. unfold add, pushRecords_records, isRevoked. rewrite Hr.
  destruct (partitionInput pw) as [|r rest] eqn:Hq; simpl.
  - by split_and!.
  - rewrite Hr. by split_and!.
Qed.

(** *** Interjections *)

(** X15: an interjection that arrives at a worker that is not revoked is
    counted on the revocation waiter and enrolled with the producer pool;
    the interjector then runs exactly when a producer is delivered.  An
    interjection with a one-off callback has either its callback or the
    interjector called, never both and never neither; at a revoked worker
    only the callback is called and nothing is counted or enrolled. *)
Theorem handleInterjection_outcome delivered inter pw :
  let pw' := handleInterjection delivered inter pw in
  let runs := negb (revoked pw) && bool_decide (delivered <> None) in
  interjector_calls (trace pw') =
    interjector_calls (trace pw) ++
      (if runs then [(ij_id inter, set_producer delivered newInterjectionContext)]
       else []) /\
  callback_calls (trace pw') =
    callback_calls (trace pw) ++
      match ij_callback inter with
      | Some cb => if runs then [] else [cb]
      | None => []
      end /\
  revocationWaiter pw' =
    (revocationWaiter pw + (if revoked pw then 0 else 1))%Z /\
  (ij_callback inter <> None ->
     (length (interjector_calls (trace pw')) +
      length (callback_calls (trace pw')) =
      S (length (interjector_calls (trace pw)) +
         length (callback_calls (trace pw))))%nat).
Proof.
  unfold handleInterjection, isRevoked, interjector_calls, callback_calls.
  cbv zeta.
  destruct (revoked pw) eqn:Hr; simpl.
  - destruct (ij_callback inter) as [cb|]; simpl.
    + rewrite !omap_snoc. simpl. rewrite !app_nil_r.
      split_and!; try done; [lia|]. intros _. rewrite length_app. simpl. lia.
    + rewrite !app_nil_r. split_and!; try done. lia.
  - destruct delivered as [p|]; simpl.
    + destruct (interject inter _) eqn:Hi; simpl;
        rewrite ?omap_snoc; simpl; rewrite ?omap_snoc; simpl;
        rewrite ?omap_snoc; simpl; rewrite ?app_nil_r;
        (destruct (ij_callback inter) as [cb|]; simpl;
         rewrite ?app_nil_r; split_and!; try done;
         intros _; rewrite !length_app; simpl; lia).
    + destruct (ij_callback inter) as [cb|]; simpl;
        rewrite ?omap_snoc; simpl; rewrite ?omap_snoc; simpl;
        rewrite ?app_nil_r; split_and!; try done.
      intros _. rewrite !length_app. simpl. lia.
Qed.

(** *** A poll from end to end *)

Lemma handleEvent_frame delivered ec pw :
  revocationWaiter (handleEvent handler delivered ec pw) = revocationWaiter pw /\
  eventInput (handleEvent handler delivered ec pw) = eventInput pw /\
  partitionInput (handleEvent handler delivered ec pw) = partitionInput pw /\
  handler_calls (trace (handleEvent handler delivered ec pw)) =
    handler_calls (trace pw) ++
      match delivered with
      | Some p => [(set_producer (Some p) ec, ec_record ec)]
      | None => []
      end.
Proof.
  unfold handleEvent. cbv zeta.
  pose proof (forwardToEventSource_frame handler delivered ec
                (set_pending (Int64.add (pending pw) (-1)) pw)) as Hf.
  pose proof (forwardToEventSource_calls handler delivered ec
                (set_pending (Int64.add (pending pw) (-1)) pw)) as Hc.
  simpl in Hf. destruct Hf as (_ & _ & _ & Hw & He & Hi & _).
  simpl. by rewrite Hw, He, Hi, Hc.
Qed.

Lemma handle_all delivered (ecs : list EventContext) pw :
  (Int64.min_signed + Z.of_nat (length ecs) <= pending pw <= Int64.max_signed)%Z ->
  (Int64.min_signed <= processed pw)%Z ->
  (processed pw + Z.of_nat (length ecs) <= Int64.max_signed)%Z ->
  Forall (fun ec => (Int64.min_signed <= EventContext_Offset ec < Int64.max_signed)%Z)
    ecs ->
  let r := work_loop handler [] (event_messages delivered ecs) pw in
  snd r = Continue /\
  pending (fst r) = (pending pw - Z.of_nat (length ecs))%Z /\
  processed (fst r) = (processed pw + Z.of_nat (length ecs))%Z /\
  highestOffset (fst r) =
    match last ecs with
    | Some ec => (EventContext_Offset ec + 1)%Z
    | None => highestOffset pw
    end /\
  revocationWaiter (fst r) = revocationWaiter pw /\
  handler_calls (trace (fst r)) =
    handler_calls (trace pw) ++ omap (handled_call delivered) ecs.
Proof.
  revert pw. induction ecs as [|ec ecs IH]; intros pw Hp Hq0 Hq Ho.
  - simpl. rewrite app_nil_r. split_and!; try done; lia.
  - apply Forall_cons in Ho as [Hoe Ho]. simpl length in *.
    cbn [event_messages fmap list_fmap work_loop work_iteration].
    change ((fun ec0 => FromEventInput ec0 (delivered ec0)) <$> ecs)
      with (event_messages delivered ecs).
    destruct (handleEvent_updates_exact handler (delivered ec) ec pw)
      as (Hp1 & Ho1 & Hq1); [lia|lia|lia|].
    destruct (handleEvent_frame (delivered ec) ec pw) as (Hw1 & _ & _ & Hc1).
    specialize (IH (handleEvent handler (delivered ec) ec pw)).
    rewrite Hp1, Hq1, Ho1, Hw1, Hc1 in IH.
    destruct IH as (Hc & Hp' & Hq' & Ho' & Hw' & Hcalls'); [lia|lia|lia|done|].
    split_and!; try done; try lia.
    + rewrite Ho'. rewrite last_cons. by destruct (last ecs).
    + rewrite Hcalls', <- app_assoc. f_equal. simpl. unfold handled_call at 2.
      by destruct (delivered ec).
Qed.

(** X16: a poll from end to end, on a worker that is not revoked and whose
    channels are empty, with counters and offsets away from the ends of
    [int64].  After [add], [pushRecords] and the handling of every context
    sent on [eventInput]: [processed] has grown by the number of forwarded
    records, [highestOffset] is one past the offset of the last forwarded
    record, the handler was called for the forwarded records whose producer
    was delivered, in order, and [pending], which [add] raised by the length
    of the slice, is above its old value by the number of dropped records:
    a dropped record is never counted out of [pending]. *)
Theorem poll_round_counters delivered (records : list (option kgoRecord)) pw :
  revoked pw = false -> partitionInput pw = [] -> eventInput pw = [] ->
  (Int64.min_signed <= pending pw)%Z ->
  (pending pw + Z.of_nat (length records) <= Int64.max_signed)%Z ->
  (Int64.min_signed <= processed pw)%Z ->
  (processed pw + Z.of_nat (length records) <= Int64.max_signed)%Z ->
  Forall (fun record => match record with
                        | Some r => (Int64.min_signed <= Offset r < Int64.max_signed)%Z
                        | None => True
                        end) records ->
  let kept := omap (fresh (highestOffset pw)) records in
  let dropped := (Z.of_nat (length records) - Z.of_nat (length kept))%Z in
  let pw' := poll_round handler delivered records pw in
  pending pw' = (pending pw + dropped)%Z /\
  processed pw' = (processed pw + Z.of_nat (length kept))%Z /\
  highestOffset pw' =
    match last kept with
    | Some r => (Offset r + 1)%Z
    | None => highestOffset pw
    end /\
  revocationWaiter pw' = (revocationWaiter pw + Z.of_nat (length kept))%Z /\
  handler_calls (trace pw') =
    handler_calls (trace pw) ++
      omap (handled_call delivered) (newEventContext <$> kept).
Proof.
  intros Hr Hpi Hei Hp0 Hp1 Hq0 Hq1 Ho kept dropped pw'.
  subst pw' dropped. unfold poll_round. cbv zeta.
  assert (Hlen : (length kept <= length records)%nat).
  { unfold kept. clear. induction records as [|r records IH]; simpl; [lia|].
    destruct (fresh _ r); simpl; fold_omap; lia. }
  assert (Hadd : add records pw =
            set_partitionInput [records]
              (set_pending (pending pw + Z.of_nat (length records)) pw)).
  { unfold add, isRevoked. rewrite Hr, Hpi. unfold Int64.add.
    rewrite wrap_in_range; [done|].
    unfold Int64.in_range, Int64.min_signed, Int64.max_signed in *. lia. }
  rewrite Hadd. unfold pushRecords_records, isRevoked. simpl. rewrite Hr.
  unfold scheduleTxnAndExecution.
  set (pw1 := waiter_Add _ _).
  pose proof (schedule_fold records pw1) as Hf. simpl in Hf.
  fold kept in Hf. rewrite Hei in Hf. simpl in Hf.
  set (pw2 := foldl schedule_record pw1 records) in *.
  destruct Hf as (He & Ht & Hw & Hh & Hp & Hq & _).
  rewrite He.
  assert (Hoff : Forall (fun ec => (Int64.min_signed <= EventContext_Offset ec
                                    < Int64.max_signed)%Z)
                   (newEventContext <$> kept)).
  { apply Forall_fmap. apply Forall_forall. intros r Hin.
    unfold kept in Hin. apply list_elem_of_omap in Hin as ([r'|] & Hin & Hfr);
      simpl in Hfr; [|done].
    destruct (highestOffset pw <=? Offset r')%Z; [|done]. injection Hfr as <-.
    rewrite Forall_forall in Ho. exact (Ho _ Hin). }
  pose proof (handle_all delivered (newEventContext <$> kept)
                (set_eventInput [] pw2)) as Hall.
  simpl in Hall. rewrite Hp, Hq, Hh, Hw, Ht, length_fmap in Hall.
  destruct Hall as (_ & Hp' & Hq' & Ho' & Hw' & Hc'); [lia|lia|lia|done|].
  rewrite Hp', Hq', Ho', Hw', Hc'.
  split_and!; try lia.
  - rewrite fmap_last. by destruct (last kept).
  - f_equal. unfold handler_calls. rewrite omap_app.
    pose proof (handler_calls_add (newEventContext <$> kept)) as Hnone.
    rewrite Hnone. by rewrite app_nil_r.
Qed.

End WorkerRuns.

(** ** Why items wait *)

Section Waiting.

Import Batcher Slots.

Context {K : Type} `{Countable K} {V : Type}.

Implicit Types (ab : AsyncBatcher K V) (item x : BatchItem K V)
  (b : asyncBatch K V) (l : list (asyncBatch K V)).

Lemma waits_addToBatch item j ab x :
  batchFor item ab = Some j -> waits ab x -> waits (addToBatch item j ab) x.
Proof.
  intros Hfor Hw (r & br & Hr & Hsr).
  destruct (batchFor_Ready item ab j Hfor) as (bj & Hbj & Hsj).
  destruct Hw as (i & bi & Hk & Hbi & Hsi).
  { destruct (decide (r = j)) as [->|Hne]; [by exists j, bj|].
    exists r, br. by rewrite addToBatch_lookup_ne in Hr. }
  assert (Hij : j <> i) by (intros ->; congruence).
  exists i, bi. split_and!; [|by rewrite addToBatch_lookup_ne|done].
  destruct (addToBatch_shape item j ab) as (-> & _).
  rewrite lookup_insert_ne; [done|]. intros Heq.
  unfold batchFor in Hfor. rewrite Heq, Hk, Hbi, Hsi in Hfor. done.
Qed.

Lemma waits_conditionallyExecuteBatch k ab x :
  waits ab x -> waits (conditionallyExecuteBatch k ab) x.
Proof.
  intros Hw (r & br & Hr & Hsr).
  rewrite conditionallyExecuteBatch_alter in Hr.
  assert (Hrk : r <> k).
  { intros ->. rewrite list_lookup_alter_eq in Hr.
    destruct (batches ab !! k) as [bk|]; [|done]. simpl in Hr.
    injection Hr as <-. unfold dispatch in Hsr.
    destruct (state bk) eqn:Hs; simpl in Hsr; congruence. }
  rewrite list_lookup_alter_ne in Hr by done.
  destruct Hw as (i & bi & Hk & Hbi & Hsi); [by exists r, br|].
  exists i, bi.
  destruct (conditionallyExecuteBatch_shape k ab) as (-> & _).
  split_and!; [done| |done].
  rewrite conditionallyExecuteBatch_alter.
  destruct (decide (i = k)) as [->|Hne].
  - rewrite list_lookup_alter_eq, Hbi. simpl. unfold dispatch. by rewrite Hsi.
  - by rewrite list_lookup_alter_ne.
Qed.

Lemma waits_refused x ab :
  agree ab -> batchFor x ab = None -> waits ab x.
Proof.
  intros Hag Hfor (r & br & Hr & Hsr). unfold batchFor in Hfor.
  destruct (assignments ab !! Key x) as [i|] eqn:Hk.
  - destruct (batches ab !! i) as [bi|] eqn:Hbi.
    + destruct (state bi) eqn:Hsi; [done|]. by exists i, bi.
    + apply (Hag (Key x) i) in Hk. unfold items_at in Hk. rewrite Hbi in Hk.
      by apply elem_of_nil in Hk.
  - pose proof (proj1 (first_ready_None (batches ab)) Hfor r br Hr). congruence.
Qed.

Lemma waits_flush_from (els : list (BatchItem K V)) ab x :
  waits ab x -> waits (fst (flush_from els ab)) x.
Proof.
  revert ab. induction els as [|el rest IH]; intros ab Hw; simpl; [done|].
  destruct (batchFor el ab) as [i|] eqn:Hfor.
  - pose proof (waits_addToBatch el i ab x Hfor Hw) as Hw'.
    destruct (_ =? _)%Z; simpl; [done|]. by apply IH.
  - specialize (IH ab Hw). by destruct (flush_from rest ab).
Qed.

Lemma all_executing l :
  executing_slots l = length l ->
  forall i b, l !! i = Some b -> state b = batcherExecuting.
Proof.
  induction l as [|b0 l IH]; intros Hlen [|i] b Hb; simpl in *; try done.
  - injection Hb as <-. pose proof (executing_slots_le l).
    unfold weight in Hlen. destruct (state b0); [lia|done].
  - apply (IH ltac:(pose proof (executing_slots_le l);
                    unfold weight in Hlen; destruct (state b0); lia) i b Hb).
Qed.

Lemma saturated_no_ready ab :
  batcher_inv ab -> executingCount ab = Z.of_nat (length (batches ab)) ->
  ~ has_ready ab.
Proof.
  intros (_ & Hc & _) Hsat (r & br & Hr & Hsr).
  rewrite Hc in Hsat. apply Nat2Z.inj in Hsat.
  pose proof (all_executing _ Hsat r br Hr). congruence.
Qed.

Lemma flush_from_waits (els : list (BatchItem K V)) ab :
  agree ab -> batcher_inv ab ->
  Forall (waits (fst (flush_from els ab))) (snd (flush_from els ab)).
Proof.
  revert ab. induction els as [|el rest IH]; intros ab Hag Hinv; simpl; [done|].
  destruct (batchFor el ab) as [i|] eqn:Hfor.
  - destruct (batchFor_Ready el ab i Hfor) as (b & Hb & Hs).
    pose proof (agree_addToBatch el i ab Hag Hfor) as Hag'.
    pose proof (batcher_inv_addToBatch el i ab b Hinv Hb Hs) as Hinv'.
    destruct (_ =? _)%Z eqn:Hsat; simpl.
    + apply Z.eqb_eq in Hsat. apply Forall_forall. intros x _ Hready.
      by destruct (saturated_no_ready _ Hinv' Hsat).
    + by apply IH.
  - pose proof (waits_refused el ab Hag Hfor) as Hel.
    pose proof (waits_flush_from rest ab el Hel) as Hel'.
    specialize (IH ab Hag Hinv). destruct (flush_from rest ab) as [ab' r].
    simpl in *. by constructor.
Qed.

Lemma waits_ext ab ab' x :
  batches ab' = batches ab -> assignments ab' = assignments ab ->
  waits ab x -> waits ab' x.
Proof.
  unfold waits, has_ready, key_in_flight. intros -> ->. done.
Qed.

Lemma settled_add item ab : settled ab -> settled (add item ab).
Proof.
  intros (Hag & Hinv & Hw).
  split; [by apply agree_add|]. split; [by apply batcher_inv_add|].
  unfold add. destruct (batchFor item ab) as [i|] eqn:Hfor.
  - destruct (addToBatch_shape item i ab) as (_ & -> & _).
    eapply Forall_impl; [exact Hw|]. intros x. by apply waits_addToBatch.
  - simpl. apply Forall_app. split.
    + eapply Forall_impl; [exact Hw|]. intros x. by apply waits_ext.
    + constructor; [|done].
      apply (waits_ext ab); [done|done|]. by apply waits_refused.
Qed.

Lemma settled_conditionallyExecuteBatch i ab :
  settled ab -> settled (conditionallyExecuteBatch i ab).
Proof.
  intros (Hag & Hinv & Hw).
  split; [by apply agree_conditionallyExecuteBatch|].
  split; [by apply batcher_inv_conditionallyExecuteBatch|].
  destruct (conditionallyExecuteBatch_shape i ab) as (_ & -> & _).
  eapply Forall_impl; [exact Hw|]. intros x.
  by apply waits_conditionallyExecuteBatch.
Qed.

Lemma batcher_inv_reset i ab b :
  batcher_inv ab -> batches ab !! i = Some b -> state b = batcherExecuting ->
  batcher_inv
    (set_batches (<[i := fst (reset b (assignments ab))]> (batches ab))
       (set_assignments (snd (reset b (assignments ab)))
          (set_executingCount (Int64.add (executingCount ab) (-1)) ab))).
Proof.
  intros (Hslots & Hcount & Hlen) Hb Hs. unfold batcher_inv. simpl.
  pose proof (Forall_lookup_1 _ _ _ _ Hslots Hb) as (Hex & _ & _).
  set (b' := {| items := []; state := batcherReady; flushTimer := flushTimer b |}).
  replace (<[i := b']> (batches ab)) with (alter (fun _ => b') i (batches ab))
    by (symmetry; apply list_insert_alter).
  split_and!.
  - apply Forall_alter; [done|]. intros b0 _ _. unfold b'.
    rewrite (Hex Hs). repeat split; simpl; try done; lia.
  - pose proof (executing_slots_alter (fun _ => b') _ _ _ Hb) as Halt.
    unfold weight in Halt. rewrite Hs in Halt. simpl in Halt.
    pose proof (executing_slots_le (batches ab)) as Hle.
    unfold Int64.add. rewrite wrap_in_range.
    + lia.
    + unfold Int64.in_range, Int64.min_signed, Int64.max_signed in *. lia.
  - by rewrite length_alter.
Qed.

Lemma settled_executeBatch_locked i ab :
  settled ab -> is_executing i ab = true -> settled (executeBatch_locked i ab).
Proof.
  intros (Hag & Hinv & Hw) Hexec.
  split; [by apply agree_executeBatch_locked|].
  split; [by apply batcher_inv_executeBatch_locked|].
  unfold is_executing in Hexec. unfold executeBatch_locked.
  destruct (batches ab !! i) as [b|] eqn:Hb; [|done].
  destruct (state b) eqn:Hs; [done|]. cbn [reset fst snd].
  unfold flushPendingItems.
  set (ab2 := set_batches _ _).
  assert (Hag2 : agree ab2).
  { pose proof (agree_reset i b ab Hag Hb) as Hr. revert Hr.
    apply agree_ext; reflexivity. }
  assert (Hinv2 : batcher_inv ab2) by exact (batcher_inv_reset i ab b Hinv Hb Hs).
  pose proof (flush_from_waits (pendingItems ab2) ab2 Hag2 Hinv2) as Hf.
  destruct (flush_from (pendingItems ab2) ab2) as [ab' remaining].
  simpl in *. eapply Forall_impl; [exact Hf|]. intros x. by apply waits_ext.
Qed.

Lemma settled_criticals ops ab : settled ab -> settled (criticals ops ab).
Proof.
  unfold criticals. revert ab.
  induction ops as [|o ops IH]; intros ab Hs; simpl; [done|].
  apply IH. destruct o as [item|i|i]; simpl.
  - by apply settled_add.
  - by apply settled_conditionallyExecuteBatch.
  - destruct (is_executing i ab) eqn:He; [|done].
    by apply settled_executeBatch_locked.
Qed.

(** X17: no item waits without a reason.  In every state the batcher
    reaches, if some slot is Ready then every item in the pending queue has
    its key assigned to a slot that is Executing; so an item is in the queue
    only while all slots are Executing or its own key is in flight. *)
Theorem pending_items_wait_for_a_reason maxBatchSize maxConcurrentBatches delay
    (ab0 : AsyncBatcher K V) (ops : list (op K V)) :
  NewAsyncBatcher maxBatchSize maxConcurrentBatches delay = Some ab0 ->
  (maxConcurrentBatches <= Int64.max_signed)%Z ->
  forall x, x ∈ pendingItems (criticals ops ab0) ->
    (exists i b, batches (criticals ops ab0) !! i = Some b /\
                 state b = batcherReady) ->
    exists i b, assignments (criticals ops ab0) !! Key x = Some i /\
                batches (criticals ops ab0) !! i = Some b /\
                state b = batcherExecuting.
Proof.
  intros Hnew Hmax x Hx Hready.
  assert (H0 : settled ab0).
  { split; [by apply (agree_NewAsyncBatcher _ _ _ _ Hnew)|].
    split; [by apply (batcher_inv_NewAsyncBatcher _ _ _ _ Hnew)|].
    destruct (NewAsyncBatcher_fields _ _ _ _ Hnew) as (_ & _ & -> & _). done. }
  destruct (settled_criticals ops ab0 H0) as (_ & _ & Hw).
  rewrite Forall_forall in Hw. exact (Hw x Hx Hready).
Qed.

End Waiting.

(** ** The properties above on concrete states *)

Section MoreRuns.

Import Batcher Slots Examples MoreExamples.

(** Two slots, one of them Executing after the run. *)
Lemma executingCount_counts_executing_witness :
  NewAsyncBatcher 2 2 0 = Some two_slots /\
  (2 <= Int64.max_signed)%Z /\
  executingCount (criticals busy_ops two_slots) = 1%Z /\
  Z.of_nat (length (batches (criticals busy_ops two_slots))) = 2%Z.
Proof.
  assert (H0 : NewAsyncBatcher 2 2 0 = Some two_slots) by reflexivity.
  assert (H1 : (2 <= Int64.max_signed)%Z) by (vm_compute; discriminate).
  split; [exact H0|]. split; [exact H1|].
  destruct (executingCount_counts_executing 2 2 0 two_slots busy_ops H0 H1)
    as (Hc & _ & Hl).
  split; [exact Hc | exact Hl].
Defined.

(** A Ready slot with one item: its timer is armed. *)
Lemma flush_timer_discipline_witness :
  NewAsyncBatcher 2 2 0 = Some two_slots /\
  (2 <= Int64.max_signed)%Z /\
  batches (criticals one_add two_slots) !! 0%nat = Some slot_a /\
  (items slot_a <> [] -> state slot_a = batcherExecuting \/ flushTimer slot_a = true).
Proof.
  assert (H0 : NewAsyncBatcher 2 2 0 = Some two_slots) by reflexivity.
  assert (H1 : (2 <= Int64.max_signed)%Z) by (vm_compute; discriminate).
  assert (H2 : batches (criticals one_add two_slots) !! 0%nat = Some slot_a)
    by reflexivity.
  split; [exact H0|]. split; [exact H1|]. split; [exact H2|].
  exact (proj2 (proj2 (flush_timer_discipline 2 2 0 two_slots one_add H0 H1
                         0%nat slot_a H2))).
Defined.

(** An item whose key is in flight leaves the Executing slot as it is. *)
Lemma executing_slot_stable_witness :
  batches (criticals two_adds two_slots) !! 0%nat = Some slot_ab /\
  state slot_ab = batcherExecuting /\
  OpAdd item_c <> OpFinish 0 /\
  batches (critical (OpAdd item_c) (criticals two_adds two_slots)) !! 0%nat =
    Some slot_ab.
Proof.
  assert (H0 : batches (criticals two_adds two_slots) !! 0%nat = Some slot_ab)
    by reflexivity.
  assert (H1 : state slot_ab = batcherExecuting) by reflexivity.
  assert (H2 : OpAdd item_c <> OpFinish (K:=nat) (V:=nat) 0) by discriminate.
  split; [exact H0|]. split; [exact H1|]. split; [exact H2|].
  exact (executing_slot_stable (OpAdd item_c) _ 0%nat slot_ab H0 H1 H2).
Defined.

(** The dispatched slot holds exactly two items. *)
Lemma slot_size_bound_witness :
  NewAsyncBatcher 2 2 0 = Some two_slots /\
  (2 <= Int64.max_signed)%Z /\ (1 <= 2)%Z /\
  batches (criticals two_adds two_slots) !! 0%nat = Some slot_ab /\
  (Z.of_nat (length (items slot_ab)) <= 2)%Z.
Proof.
  assert (H0 : NewAsyncBatcher 2 2 0 = Some two_slots) by reflexivity.
  assert (H1 : (2 <= Int64.max_signed)%Z) by (vm_compute; discriminate).
  assert (H2 : (1 <= 2)%Z) by lia.
  assert (H3 : batches (criticals two_adds two_slots) !! 0%nat = Some slot_ab)
    by reflexivity.
  split; [exact H0|]. split; [exact H1|]. split; [exact H2|]. split; [exact H3|].
  exact (proj1 (slot_size_bound 2 2 0 two_slots two_adds H0 H1 H2 0%nat slot_ab H3)).
Defined.

(** [item_b] after the first execution: it is still with the batcher. *)
Lemma submitted_items_are_held_witness :
  exists s0, boot store_ab 1 1 0 = Some s0 /\
    panicked (run run_ab s0) = false /\
    item_b ∈ submitted run_ab /\
    (item_b ∈ concat (executorCalls (run run_ab s0)) \/
     item_b ∈ all_items (batcher (run run_ab s0))).
Proof.
  eexists. split; [reflexivity|].
  match goal with |- panicked (run _ ?s) = _ /\ _ => set (s0 := s) end.
  assert (H0 : panicked (run run_ab s0) = false) by reflexivity.
  assert (H1 : item_b ∈ submitted run_ab).
  { apply elem_of_cons. right. apply elem_of_cons. by left. }
  split; [exact H0|]. split; [exact H1|].
  exact (submitted_items_are_held run_ab s0 H0 item_b H1).
Defined.

(** What the executor received in that run was submitted. *)
Lemma executor_receives_submitted_witness :
  exists s0, boot store_ab 1 1 0 = Some s0 /\
    (forall call x, call ∈ executorCalls (run run_ab s0) -> x ∈ call ->
       x ∈ submitted run_ab).
Proof.
  eexists. split; [reflexivity|].
  exact (proj1 (executor_receives_submitted store_ab 1 1 0 _ run_ab eq_refl)).
Defined.

(** One slot of size one: every call of the executor has one item at most. *)
Lemma executor_batch_size_bound_witness :
  exists s0, boot store_ab 1 1 0 = Some s0 /\
    (1 <= Int64.max_signed)%Z /\ (1 <= 1)%Z /\
    (forall call, call ∈ executorCalls (run run_ab s0) ->
       (Z.of_nat (length call) <= 1)%Z).
Proof.
  eexists. split; [reflexivity|].
  assert (H1 : (1 <= Int64.max_signed)%Z) by (vm_compute; discriminate).
  assert (H2 : (1 <= 1)%Z) by lia.
  split; [exact H1|]. split; [exact H2|].
  exact (executor_batch_size_bound store_ab 1 1 0 _ run_ab eq_refl H1 H2).
Defined.

(** Three calls on the empty batch fire nothing. *)
Lemma completeItem_after_count_silent_witness :
  (0 <= completed batch_empty)%Z /\
  (Z.of_nat (length (Items batch_empty)) <= completed batch_empty)%Z /\
  (completed batch_empty + Z.of_nat 3 <= Int64.max_signed)%Z /\
  snd (completeItem_times 3 batch_empty) = [] /\
  completed (fst (completeItem_times 3 batch_empty)) = 3%Z.
Proof.
  assert (H0 : (0 <= completed batch_empty)%Z) by (simpl; lia).
  assert (H1 : (Z.of_nat (length (Items batch_empty)) <= completed batch_empty)%Z)
    by (simpl; lia).
  assert (H2 : (completed batch_empty + Z.of_nat 3 <= Int64.max_signed)%Z)
    by (vm_compute; discriminate).
  split; [exact H0|]. split; [exact H1|]. split; [exact H2|].
  destruct (completeItem_after_count_silent batch_empty 3 H0 H1 H2) as (Hf & Hc & _).
  split; [exact Hf | exact Hc].
Defined.

(** The queued slice of a revoked worker is dropped. *)
Lemma revoked_worker_forwards_nothing_witness :
  Worker.revoked revoked_worker = true /\
  Worker.add [Some (Worker.mkRecord 13 0)] revoked_worker = revoked_worker /\
  Worker.partitionInput (Worker.pushRecords_records revoked_worker) = [] /\
  Worker.eventInput (Worker.pushRecords_records revoked_worker) = [].
Proof.
  assert (H0 : Worker.revoked revoked_worker = true) by reflexivity.
  split; [exact H0|].
  destruct (revoked_worker_forwards_nothing [Some (Worker.mkRecord 13 0)]
              revoked_worker H0) as (Ha & Hp & He & _).
  split; [exact Ha|]. split; [exact Hp | exact He].
Defined.

(** The stale-records poll from end to end: two records handled, three
    dropped and left in [pending]. *)
Lemma poll_round_counters_witness :
  Worker.revoked worker_at_10 = false /\
  Worker.partitionInput worker_at_10 = [] /\
  Worker.eventInput worker_at_10 = [] /\
  Worker.pending
    (Scenarios.poll_round Observe.completing_handler always_delivered
       poll_8_to_11 worker_at_10) = 3%Z /\
  Worker.processed
    (Scenarios.poll_round Observe.completing_handler always_delivered
       poll_8_to_11 worker_at_10) = 2%Z /\
  Worker.highestOffset
    (Scenarios.poll_round Observe.completing_handler always_delivered
       poll_8_to_11 worker_at_10) = 12%Z.
Proof.
  assert (H0 : Worker.revoked worker_at_10 = false) by reflexivity.
  assert (H1 : Worker.partitionInput worker_at_10 = []) by reflexivity.
  assert (H2 : Worker.eventInput worker_at_10 = []) by reflexivity.
  assert (H3 : (Int64.min_signed <= Worker.pending worker_at_10)%Z)
    by (vm_compute; discriminate).
  assert (H4 : (Worker.pending worker_at_10 + Z.of_nat (length poll_8_to_11)
                <= Int64.max_signed)%Z) by (vm_compute; discriminate).
  assert (H5 : (Int64.min_signed <= Worker.processed worker_at_10)%Z)
    by (vm_compute; discriminate).
  assert (H6 : (Worker.processed worker_at_10 + Z.of_nat (length poll_8_to_11)
                <= Int64.max_signed)%Z) by (vm_compute; discriminate).
  assert (H7 : Forall (fun record => match record with
                 | Some r => (Int64.min_signed <= Worker.Offset r < Int64.max_signed)%Z
                 | None => True
                 end) poll_8_to_11).
  { repeat constructor; vm_compute; discriminate || reflexivity. }
  split; [exact H0|]. split; [exact H1|]. split; [exact H2|].
  destruct (poll_round_counters Observe.completing_handler always_delivered
              poll_8_to_11 worker_at_10 H0 H1 H2 H3 H4 H5 H6 H7)
    as (Hp & Hq & Ho & _).
  split; [exact Hp|]. split; [exact Hq | exact Ho].
Defined.

(** [item_c] waits for the key it shares with [item_a], which is in
    flight on the first slot. *)
Lemma pending_items_wait_for_a_reason_witness :
  NewAsyncBatcher 2 2 0 = Some two_slots /\
  (2 <= Int64.max_signed)%Z /\
  item_c ∈ pendingItems (criticals in_flight_adds two_slots) /\
  (exists i b, batches (criticals in_flight_adds two_slots) !! i = Some b /\
               state b = batcherReady) /\
  (exists i b, assignments (criticals in_flight_adds two_slots) !! Key item_c = Some i /\
               batches (criticals in_flight_adds two_slots) !! i = Some b /\
               state b = batcherExecuting).
Proof.
  assert (H0 : NewAsyncBatcher 2 2 0 = Some two_slots) by reflexivity.
  assert (H1 : (2 <= Int64.max_signed)%Z) by (vm_compute; discriminate).
  assert (H2 : item_c ∈ pendingItems (criticals in_flight_adds two_slots)).
  { change (item_c ∈ [item_c]). apply elem_of_cons. by left. }
  assert (H3 : exists i b, batches (criticals in_flight_adds two_slots) !! i = Some b /\
                           state b = batcherReady).
  { exists 1%nat, empty_slot. split; reflexivity. }
  split; [exact H0|]. split; [exact H1|]. split; [exact H2|]. split; [exact H3|].
  exact (pending_items_wait_for_a_reason 2 2 0 two_slots in_flight_adds H0 H1
           item_c H2 H3).
Defined.

End MoreRuns.
